(** * A/B playback engine of [ab_play.py]

    A shallow embedding of the transport state, the key handler of the
    control loop ([run_ui]), the audio render callback ([make_callback]) and
    the loader ([load_wavs]), followed by the properties of the engine.

    Python integers are [Z].  A numpy array of shape [(n, ch)] is a list of
    [n] rows, each row a list of samples.  Slices follow Python's rules for
    negative and out-of-range bounds. *)

From Stdlib Require Import ZArith List Bool Lia.
From Stdlib Require Import Floats.SpecFloat.
Import ListNotations.
Open Scope Z_scope.

Set Implicit Arguments.

(** ** Python sequences *)

Module Py.

(** [len(l)] *)
Definition len {A : Type} (l : list A) : Z := Z.of_nat (length l).

(** How a slice bound [i] is adjusted against a sequence of length [n]:
    a negative bound counts from the end, and the result is clipped to
    [0..n]. *)
Definition adjust (n i : Z) : Z :=
  if i <? 0 then Z.max 0 (i + n) else Z.min i n.

(** [l[start:stop]] *)
Definition slice {A : Type} (l : list A) (start stop : Z) : list A :=
  let lo := adjust (len l) start in
  let hi := adjust (len l) stop in
  firstn (Z.to_nat (hi - lo)) (skipn (Z.to_nat lo) l).

(** [l[:stop]] *)
Definition slice_to {A : Type} (l : list A) (stop : Z) : list A :=
  firstn (Z.to_nat (adjust (len l) stop)) l.

(** [l[start:]] *)
Definition slice_from {A : Type} (l : list A) (start : Z) : list A :=
  skipn (Z.to_nat (adjust (len l) start)) l.

(** [l[i]]: [None] stands for [IndexError]. *)
Definition index {A : Type} (l : list A) (i : Z) : option A :=
  if (i <? - len l) || (len l <=? i) then None
  else nth_error l (Z.to_nat (if i <? 0 then i + len l else i)).

End Py.

(** ** Transport state *)

(** [PlaybackState] without its lock; the lock is modelled with the two
    threads further down. *)
Record PlaybackState : Type := mkState {
  active : Z;       (* 0=A, 1=B *)
  paused : bool;
  pos    : Z;
  quit   : bool
}.

(** The dataclass defaults. *)
Definition initial_state : PlaybackState :=
  {| active := 0; paused := true; pos := 0; quit := false |}.

Definition set_active (st : PlaybackState) (a : Z) : PlaybackState :=
  {| active := a; paused := paused st; pos := pos st; quit := quit st |}.
Definition set_paused (st : PlaybackState) (p : bool) : PlaybackState :=
  {| active := active st; paused := p; pos := pos st; quit := quit st |}.
Definition set_pos (st : PlaybackState) (p : Z) : PlaybackState :=
  {| active := active st; paused := paused st; pos := p; quit := quit st |}.
Definition set_quit (st : PlaybackState) (q : bool) : PlaybackState :=
  {| active := active st; paused := paused st; pos := pos st; quit := q |}.

(** ** Key handling of the control loop *)

Module Key.
Definition q : Z := 113.
Definition Q : Z := 81.
Definition space : Z := 32.
Definition tab : Z := 9.
Definition h : Z := 104.
Definition H : Z := 72.
Definition l : Z := 108.
Definition L : Z := 76.
(** [curses.KEY_LEFT] and [curses.KEY_RIGHT] *)
Definition KEY_LEFT : Z := 260.
Definition KEY_RIGHT : Z := 261.
End Key.

(** The [if]/[elif] chain run under the lock once a key was read
    ([key <> -1]); [total_frames] is [len(buffers[0])]. *)
Definition handle_key (total_frames sr key : Z) (st : PlaybackState)
  : PlaybackState :=
  if (key =? Key.q) || (key =? Key.Q) then set_quit st true
  else if key =? Key.space then set_paused st (negb (paused st))
  else if key =? Key.tab then set_active st (1 - active st)
  else if key =? Key.KEY_LEFT then set_pos st (Z.max 0 (pos st - sr))
  else if key =? Key.KEY_RIGHT then
    set_pos st (Z.min (total_frames - 1) (pos st + sr))
  else if (key =? Key.h) || (key =? Key.H) then
    set_pos st (Z.max 0 (pos st - 5 * sr))
  else if (key =? Key.l) || (key =? Key.L) then
    set_pos st (Z.min (total_frames - 1) (pos st + 5 * sr))
  else st.

(** The keys that seek. *)
Definition seek_keys : list Z :=
  [Key.KEY_LEFT; Key.KEY_RIGHT; Key.h; Key.H; Key.l; Key.L].

(** [n] presses of TAB in a row. *)
Fixpoint toggles (total_frames sr : Z) (n : nat) (st : PlaybackState)
  : PlaybackState :=
  match n with
  | O => st
  | S k => toggles total_frames sr k (handle_key total_frames sr Key.tab st)
  end.

(** ** Samples *)

(** The operations of the array element type ([float32]) that the program
    uses: the constant 0 written by the callback, and the arithmetic of
    [normalize_peak]. *)
Class Dtype (sample : Type) : Type := {
  zero : sample;
  fabs : sample -> sample;                 (* np.abs, one element *)
  fmaximum : sample -> sample -> sample;   (* the step of .max() *)
  gt : sample -> sample -> bool;           (* x > y *)
  fdiv : sample -> sample -> sample;
  fmul : sample -> sample -> sample;
  of_float : Z -> Z -> sample              (* the literal num/den *)
}.

(** IEEE binary32 on the reference operations of [SpecFloat]. *)
Module Binary32.
Definition prec : Z := 24.
Definition emax : Z := 128.
Definition of_Z (n : Z) : spec_float := binary_normalize prec emax n 0 false.
Definition is_nan (x : spec_float) : bool :=
  match x with S754_nan => true | _ => false end.
(** [.max()] propagates NaN. *)
Definition maximum (x y : spec_float) : spec_float :=
  if is_nan x then x else if is_nan y then y
  else if SFltb x y then y else x.
End Binary32.

#[export] Instance binary32 : Dtype spec_float := {|
  zero := S754_zero false;
  fabs := SFabs;
  fmaximum := Binary32.maximum;
  gt := fun x y => SFltb y x;
  fdiv := SFdiv Binary32.prec Binary32.emax;
  fmul := SFmul Binary32.prec Binary32.emax;
  of_float := fun n d =>
    SFdiv Binary32.prec Binary32.emax (Binary32.of_Z n) (Binary32.of_Z d)
|}.

(** ** The render callback *)

Section Engine.

Context {sample : Type} `{Dtype sample}.

(** One frame: a sample per channel. *)
Definition frame : Type := list sample.

Definition zero_frame (f : frame) : frame := map (fun _ => zero) f.

(** [outdata.fill(0)] *)
Definition fill0 (outdata : list frame) : list frame :=
  map zero_frame outdata.

(** [outdata[:length] = rows].  numpy accepts as many rows as the target
    has, or a single row, which it repeats; anything else is a
    [ValueError] ([None]). *)
Definition assign_to (outdata : list frame) (length : Z) (rows : list frame)
  : option (list frame) :=
  let k := List.length (Py.slice_to outdata length) in
  if Nat.eqb (List.length rows) k then
    Some (rows ++ Py.slice_from outdata length)
  else
    match rows with
    | [r] => Some (repeat r k ++ Py.slice_from outdata length)
    | _ => None
    end.

(** [outdata[length:] = 0] *)
Definition zero_from (outdata : list frame) (length : Z) : list frame :=
  Py.slice_to outdata length ++ fill0 (Py.slice_from outdata length).

(** How one invocation of the callback ends. *)
Inductive outcome : Type :=
| CallbackAbort                       (* raise sd.CallbackAbort() *)
| Raised                              (* IndexError or ValueError *)
| Returned (st : PlaybackState) (outdata : list frame).

(** The body of [callback], run under the lock. *)
Definition callback (buffers : list (list frame)) (st : PlaybackState)
    (outdata : list frame) (frames : Z) : outcome :=
  if quit st then CallbackAbort
  else if paused st then Returned st (fill0 outdata)
  else
    match Py.index buffers (active st) with
    | None => Raised
    | Some buf =>
      let start := pos st in
      let end_ := Z.min (start + frames) (Py.len buf) in
      let length := end_ - start in
      let copied :=
        if 0 <? length then
          match assign_to outdata length (Py.slice buf start end_) with
          | Some out => Some (set_pos st end_, out)
          | None => None
          end
        else Some (st, outdata) in
      match copied with
      | None => Raised
      | Some (st1, out1) =>
        if length <? frames then
          Returned (set_pos (set_paused st1 true) 0) (zero_from out1 length)
        else Returned st1 out1
      end
    end.

End Engine.

(** ** Loading *)

Section Loader.

Context {sample : Type} `{Dtype sample}.

(** What [sf.read] returns for the samples: a one-dimensional array for a
    mono file, a two-dimensional one otherwise. *)
Inductive ndarray : Type :=
| Arr1 (data : list sample)
| Arr2 (ncols : Z) (rows : list (list sample)).

(** An array of shape [(len rows, channels)]. *)
Record array2 : Type := mkArray2 {
  channels : Z;
  rows : list (list sample)
}.

(** [audio.reshape(-1, 1)] when [audio.ndim == 1], else [audio]. *)
Definition ensure_2d (audio : ndarray) : array2 :=
  match audio with
  | Arr1 data => {| channels := 1; rows := map (fun x => [x]) data |}
  | Arr2 ncols rs => {| channels := ncols; rows := rs |}
  end.

(** [audio[:n]] along the first axis *)
Definition truncate (audio : array2) (n : Z) : array2 :=
  {| channels := channels audio; rows := Py.slice_to (rows audio) n |}.

(** [np.abs(audio).max()]: [None] is the [ValueError] numpy raises when
    the array has no element. *)
Definition abs_max (audio : array2) : option sample :=
  match map fabs (concat (rows audio)) with
  | [] => None
  | x :: xs => Some (fold_left fmaximum xs x)
  end.

(** [normalize_peak(audio)] with the default [target = 0.95]. *)
Definition normalize_peak (audio : array2) : option array2 :=
  match abs_max audio with
  | None => None
  | Some peak =>
    if gt peak zero then
      let factor := fdiv (of_float 95 100) peak in
      Some {| channels := channels audio;
              rows := map (map (fun x => fmul x factor)) (rows audio) |}
    else Some audio
  end.

(** The messages printed before [sys.exit(1)]. *)
Inductive load_error : Type :=
| FileANotFound
| FileBNotFound
| SampleRatesDiffer (sr_a sr_b : Z)
| ChannelCountsDiffer (ch_a ch_b : Z).

Inductive load_result : Type :=
| SysExit (msg : load_error) (code : Z)
| ValueError                      (* an exception nothing catches *)
| Loaded (audio_a audio_b : array2) (sr : Z).

(** [load_wavs].  A path is given by what the file system holds there:
    [None] when [path.exists()] is false, otherwise the pair that
    [sf.read] returns. *)
Definition load_wavs (path_a path_b : option (ndarray * Z))
    (do_normalize : bool) : load_result :=
  match path_a with
  | None => SysExit FileANotFound 1
  | Some (audio_a, sr_a) =>
    match path_b with
    | None => SysExit FileBNotFound 1
    | Some (audio_b, sr_b) =>
      if negb (sr_a =? sr_b) then SysExit (SampleRatesDiffer sr_a sr_b) 1
      else
        let audio_a := ensure_2d audio_a in
        let audio_b := ensure_2d audio_b in
        if negb (channels audio_a =? channels audio_b) then
          SysExit (ChannelCountsDiffer (channels audio_a) (channels audio_b)) 1
        else
          let min_len :=
            Z.min (Py.len (rows audio_a)) (Py.len (rows audio_b)) in
          let audio_a := truncate audio_a min_len in
          let audio_b := truncate audio_b min_len in
          if do_normalize then
            match normalize_peak audio_a with
            | None => ValueError
            | Some audio_a =>
              match normalize_peak audio_b with
              | None => ValueError
              | Some audio_b => Loaded audio_a audio_b sr_a
              end
            end
          else Loaded audio_a audio_b sr_a
    end
  end.

End Loader.

(** ** A small pair of buffers *)

(** Two mono buffers of three frames, in binary32, and a device block of
    [n] frames holding stale data. *)
Module Demo.
Definition s (n : Z) : spec_float := Binary32.of_Z n.
Definition audio_a : list (@frame spec_float) := [[s 1]; [s 2]; [s 3]].
Definition audio_b : list (@frame spec_float) := [[s 4]; [s 5]; [s 6]].
Definition stale (n : nat) : list (@frame spec_float) := repeat [s 9] n.
Definition playing (a position : Z) : PlaybackState :=
  {| active := a; paused := false; pos := position; quit := false |}.
End Demo.

(** ** What a block holds *)

Section Blocks.

Context {sample : Type} `{Dtype sample}.

(** The block the engine owes for a playing state: the frames of [buf]
    from [position] on, as many as fit, then zero frames up to the size of
    the block. *)
Definition render_block (buf : list (@frame sample)) (position : Z)
    (outdata : list (@frame sample)) : list frame :=
  let got := firstn (length outdata) (skipn (Z.to_nat position) buf) in
  got ++ fill0 (skipn (length got) outdata).

(** Every sample of the block is the constant 0. *)
Definition silent (block : list (@frame sample)) : Prop :=
  Forall (Forall (fun x => x = zero)) block.

End Blocks.

(** The state a playing callback owes when [pos] is in range: advanced by
    the block when the block fits, else paused and rewound. *)
Definition advance (st : PlaybackState) (total_frames frames : Z)
  : PlaybackState :=
  if pos st + frames <=? total_frames
  then set_pos st (pos st + frames)
  else set_pos (set_paused st true) 0.

(** The range of [pos] for buffers of [total_frames] frames. *)
Definition pos_in_range (total_frames : Z) (st : PlaybackState) : Prop :=
  0 <= pos st <= total_frames.

(** What the shared state can be while the two threads run: [active]
    names a buffer, and [pos] is in range; with buffers of no frame, a
    forward seek leaves [pos] at [-1]. *)
Definition state_ok (total_frames : Z) (st : PlaybackState) : Prop :=
  (active st = 0 \/ active st = 1) /\
  (pos_in_range total_frames st \/ (total_frames = 0 /\ pos st = -1)).

(** ** The two threads *)

(** The audio thread runs [callback] once per block; the UI thread runs
    the loop of [run_ui].  Each takes one statement at a time, and
    [with state.lock] is an acquire that waits and a release.  A schedule
    chooses which thread moves, what block the device asks for, and what
    [getch] returns. *)

Section Threads.

Context {sample : Type} `{Dtype sample}.

Variables audio_a audio_b : list (@frame sample).
Variable sr : Z.

(** [buffers = [audio_a, audio_b]] in [main] *)
Definition buffers : list (list frame) := [audio_a; audio_b].

(** How the [with] block of the callback is left. *)
Inductive exit_kind : Type := ExitReturn | ExitAbort | ExitRaise.

(** Program points of the callback, by source line. *)
Inductive rpc : Type :=
| RIdle                 (* between two invocations *)
| RAcquire              (* with state.lock: *)
| RQuit                 (* if state.quit: *)
| RPaused               (* if state.paused: *)
| RFill                 (* outdata.fill(0); return *)
| RBuf                  (* buf = buffers[state.active] *)
| RStart                (* start = state.pos *)
| REnd                  (* end = min(start + frames, len(buf)) *)
| RLength               (* length = end - start *)
| RIfCopy               (* if length > 0: *)
| RCopy                 (* outdata[:length] = buf[start:end] *)
| RSetPos               (* state.pos = end *)
| RIfTail               (* if length < frames: *)
| RZero                 (* outdata[length:] = 0 *)
| RSetPaused            (* state.paused = True *)
| RReset                (* state.pos = 0 *)
| RExit (k : exit_kind) (* leaving the with block *)
| RStopped.             (* the stream ended on an exception *)

(** Locals of the audio thread.  [r_snap] and [r_given] are history
    variables: the shared state when the lock was taken and the block as
    the device handed it over. *)
Record rlocal : Type := mkRlocal {
  r_pc : rpc;
  r_outdata : list (@frame sample);
  r_frames : Z;
  r_buf : list (@frame sample);
  r_start : Z;
  r_end : Z;
  r_length : Z;
  r_snap : PlaybackState;
  r_given : list (@frame sample)
}.

Definition r_goto (rl : rlocal) (pc : rpc) : rlocal :=
  mkRlocal pc (r_outdata rl) (r_frames rl) (r_buf rl) (r_start rl)
           (r_end rl) (r_length rl) (r_snap rl) (r_given rl).
Definition r_set_outdata (rl : rlocal) (out : list frame) : rlocal :=
  mkRlocal (r_pc rl) out (r_frames rl) (r_buf rl) (r_start rl)
           (r_end rl) (r_length rl) (r_snap rl) (r_given rl).
Definition r_set_buf (rl : rlocal) (b : list frame) : rlocal :=
  mkRlocal (r_pc rl) (r_outdata rl) (r_frames rl) b (r_start rl)
           (r_end rl) (r_length rl) (r_snap rl) (r_given rl).
Definition r_set_start (rl : rlocal) (v : Z) : rlocal :=
  mkRlocal (r_pc rl) (r_outdata rl) (r_frames rl) (r_buf rl) v
           (r_end rl) (r_length rl) (r_snap rl) (r_given rl).
Definition r_set_end (rl : rlocal) (v : Z) : rlocal :=
  mkRlocal (r_pc rl) (r_outdata rl) (r_frames rl) (r_buf rl) (r_start rl)
           v (r_length rl) (r_snap rl) (r_given rl).
Definition r_set_length (rl : rlocal) (v : Z) : rlocal :=
  mkRlocal (r_pc rl) (r_outdata rl) (r_frames rl) (r_buf rl) (r_start rl)
           (r_end rl) v (r_snap rl) (r_given rl).

(** One statement of the callback inside the [with] block. *)
Definition render_stmt (sh : PlaybackState) (rl : rlocal)
  : PlaybackState * rlocal :=
  match r_pc rl with
  | RQuit =>
    (sh, r_goto rl (if quit sh then RExit ExitAbort else RPaused))
  | RPaused => (sh, r_goto rl (if paused sh then RFill else RBuf))
  | RFill =>
    (sh, r_goto (r_set_outdata rl (fill0 (r_outdata rl))) (RExit ExitReturn))
  | RBuf =>
    match Py.index buffers (active sh) with
    | None => (sh, r_goto rl (RExit ExitRaise))
    | Some b => (sh, r_goto (r_set_buf rl b) RStart)
    end
  | RStart => (sh, r_goto (r_set_start rl (pos sh)) REnd)
  | REnd =>
    (sh, r_goto (r_set_end rl (Z.min (r_start rl + r_frames rl)
                                     (Py.len (r_buf rl)))) RLength)
  | RLength => (sh, r_goto (r_set_length rl (r_end rl - r_start rl)) RIfCopy)
  | RIfCopy => (sh, r_goto rl (if 0 <? r_length rl then RCopy else RIfTail))
  | RCopy =>
    match assign_to (r_outdata rl) (r_length rl)
                    (Py.slice (r_buf rl) (r_start rl) (r_end rl)) with
    | None => (sh, r_goto rl (RExit ExitRaise))
    | Some out => (sh, r_goto (r_set_outdata rl out) RSetPos)
    end
  | RSetPos => (set_pos sh (r_end rl), r_goto rl RIfTail)
  | RIfTail =>
    (sh, r_goto rl (if r_length rl <? r_frames rl then RZero
                    else RExit ExitReturn))
  | RZero =>
    (sh, r_goto (r_set_outdata rl (zero_from (r_outdata rl) (r_length rl)))
                RSetPaused)
  | RSetPaused => (set_paused sh true, r_goto rl RReset)
  | RReset => (set_pos sh 0, r_goto rl (RExit ExitReturn))
  | RIdle | RAcquire | RExit _ | RStopped => (sh, rl)
  end.

(** The audio thread holds the lock. *)
Definition render_in_cs (pc : rpc) : bool :=
  match pc with
  | RIdle | RAcquire | RStopped => false
  | _ => true
  end.

(** Program points of the loop of [run_ui]. *)
Inductive upc : Type :=
| UWhile                (* while not state.quit: *)
| USnapAcquire          (* with state.lock: *)
| USnapActive           (* active = state.active *)
| USnapPaused           (* paused = state.paused *)
| USnapPos              (* pos = state.pos *)
| USnapRelease
| UGetch                (* display, then key = stdscr.getch() *)
| UAcquire              (* with state.lock: *)
| UHandle               (* the if/elif chain on key *)
| URelease
| UDone.                (* the loop has ended *)

Record ulocal : Type := mkUlocal {
  u_pc : upc;
  u_active : Z;
  u_paused : bool;
  u_pos : Z;
  u_key : Z
}.

Definition u_goto (ul : ulocal) (pc : upc) : ulocal :=
  mkUlocal pc (u_active ul) (u_paused ul) (u_pos ul) (u_key ul).

Definition ui_in_cs (pc : upc) : bool :=
  match pc with
  | USnapActive | USnapPaused | USnapPos | USnapRelease
  | UHandle | URelease => true
  | _ => false
  end.

(** A block handed to the device, with the history of its invocation. *)
Record emission : Type := mkEmission {
  e_snapshot : PlaybackState;       (* shared state when the lock was taken *)
  e_given : list (@frame sample);   (* the block as requested *)
  e_after : PlaybackState;          (* shared state when the lock was left *)
  e_block : list (@frame sample)    (* the block as returned *)
}.

Record config : Type := mkConfig {
  shared : PlaybackState;
  lock : bool;
  render : rlocal;
  ui : ulocal;
  emitted : list emission
}.

Definition initial_config : config :=
  {| shared := initial_state;
     lock := false;
     render := mkRlocal RIdle [] 0 [] 0 0 0 initial_state [];
     ui := mkUlocal UWhile 0 true 0 (-1);
     emitted := [] |}.

Inductive action : Type :=
| Invoke (outdata : list (@frame sample))   (* the device asks for a block *)
| RenderStep                                (* the audio thread moves *)
| Getch (key : Z)                           (* getch returns *)
| UiStep.                                   (* the UI thread moves *)

(** The audio thread's move. [None]: it cannot move (it waits for the
    lock, or has nothing to run). *)
Definition render_move (c : config) : option config :=
  let rl := render c in
  match r_pc rl with
  | RIdle | RStopped => None
  | RAcquire =>
    if lock c then None
    else
      let rl' := mkRlocal RQuit (r_outdata rl) (r_frames rl) (r_buf rl)
                   (r_start rl) (r_end rl) (r_length rl)
                   (shared c) (r_outdata rl) in
      Some (mkConfig (shared c) true rl' (ui c) (emitted c))
  | RExit ExitReturn =>
    Some (mkConfig (shared c) false (r_goto rl RIdle) (ui c)
            (emitted c ++
             [mkEmission (r_snap rl) (r_given rl) (shared c) (r_outdata rl)]))
  | RExit _ =>
    Some (mkConfig (shared c) false (r_goto rl RStopped) (ui c) (emitted c))
  | _ =>
    let (sh', rl') := render_stmt (shared c) rl in
    Some (mkConfig sh' (lock c) rl' (ui c) (emitted c))
  end.

(** The UI thread's move; [getch] is a move of its own. *)
Definition ui_move (c : config) : option config :=
  let ul := ui c in
  let put sh lk ul' := Some (mkConfig sh lk (render c) ul' (emitted c)) in
  match u_pc ul with
  | UWhile =>
    put (shared c) (lock c)
        (u_goto ul (if quit (shared c) then UDone else USnapAcquire))
  | USnapAcquire =>
    if lock c then None else put (shared c) true (u_goto ul USnapActive)
  | USnapActive =>
    put (shared c) (lock c)
        (mkUlocal USnapPaused (active (shared c)) (u_paused ul)
                  (u_pos ul) (u_key ul))
  | USnapPaused =>
    put (shared c) (lock c)
        (mkUlocal USnapPos (u_active ul) (paused (shared c))
                  (u_pos ul) (u_key ul))
  | USnapPos =>
    put (shared c) (lock c)
        (mkUlocal USnapRelease (u_active ul) (u_paused ul)
                  (pos (shared c)) (u_key ul))
  | USnapRelease => put (shared c) false (u_goto ul UGetch)
  | UGetch | UDone => None
  | UAcquire =>
    if lock c then None else put (shared c) true (u_goto ul UHandle)
  | UHandle =>
    put (handle_key (Py.len audio_a) sr (u_key ul) (shared c)) (lock c)
        (u_goto ul URelease)
  | URelease => put (shared c) false (u_goto ul UWhile)
  end.

Definition step (c : config) (a : action) : option config :=
  match a with
  | Invoke outdata =>
    match r_pc (render c) with
    | RIdle =>
      let rl := render c in
      let rl' := mkRlocal RAcquire outdata (Py.len outdata) (r_buf rl)
                   (r_start rl) (r_end rl) (r_length rl)
                   (r_snap rl) (r_given rl) in
      Some (mkConfig (shared c) (lock c) rl' (ui c) (emitted c))
    | _ => None
    end
  | RenderStep => render_move c
  | Getch key =>
    match u_pc (ui c) with
    | UGetch =>
      let ul := ui c in
      let ul' := mkUlocal (if key =? -1 then UWhile else UAcquire)
                   (u_active ul) (u_paused ul) (u_pos ul) key in
      Some (mkConfig (shared c) (lock c) (render c) ul' (emitted c))
    | _ => None
    end
  | UiStep => ui_move c
  end.

(** Running a schedule; [None] when it asks for a move that is not
    possible. *)
Fixpoint run (c : config) (schedule : list action) : option config :=
  match schedule with
  | [] => Some c
  | a :: rest =>
    match step c a with
    | Some c' => run c' rest
    | None => None
    end
  end.

(** The block of an emission comes from one buffer, read at the position
    of one snapshot: silence when that snapshot is paused, else the frames
    of the snapshot's active buffer from the snapshot's position on. *)
Definition from_one_snapshot (e : emission) : Prop :=
  exists buf,
    Py.index buffers (active (e_snapshot e)) = Some buf /\
    e_block e =
      (if paused (e_snapshot e) then fill0 (e_given e)
       else render_block buf (pos (e_snapshot e)) (e_given e)).

(** The audio thread alone, for [n] statements; it rests once it has
    reached the end of the [with] block. *)
Fixpoint finish (n : nat) (x : PlaybackState * rlocal)
  : PlaybackState * rlocal :=
  match n with
  | O => x
  | S k => let (sh, rl) := render_stmt (fst x) (snd x) in finish k (sh, rl)
  end.

(** At the end of the [with] block, the shared state and the block are
    what [callback] computes from the snapshot. *)
Definition agrees (x : PlaybackState * rlocal) : Prop :=
  let rl := snd x in
  let result :=
    callback buffers (r_snap rl) (r_given rl) (Py.len (r_given rl)) in
  match r_pc rl with
  | RExit ExitReturn => result = Returned (fst x) (r_outdata rl)
  | RExit ExitAbort => result = CallbackAbort /\ fst x = r_snap rl
  | RExit ExitRaise => result = Raised /\ fst x = r_snap rl
  | _ => False
  end.

(** An emission is the callback run on its snapshot. *)
Definition atomic (e : emission) : Prop :=
  callback buffers (e_snapshot e) (e_given e) (Py.len (e_given e))
    = Returned (e_after e) (e_block e) /\
  state_ok (Py.len audio_a) (e_snapshot e).

(** The invariant of the two threads: who is inside a [with] block holds
    the lock, never both; the shared state is in range whenever the audio
    thread is outside; inside, the audio thread is on its way to what
    [callback] computes from the snapshot; the device passes the size of
    the block as [frames]. *)
Record invariant (c : config) : Prop := mkInvariant {
  inv_render_lock : render_in_cs (r_pc (render c)) = true -> lock c = true;
  inv_ui_lock : ui_in_cs (u_pc (ui c)) = true -> lock c = true;
  inv_mutex :
    render_in_cs (r_pc (render c)) = true ->
    ui_in_cs (u_pc (ui c)) = true -> False;
  inv_outside :
    render_in_cs (r_pc (render c)) = false ->
    state_ok (Py.len audio_a) (shared c);
  inv_inside :
    render_in_cs (r_pc (render c)) = true ->
    agrees (finish 14%nat (shared c, render c)) /\
    state_ok (Py.len audio_a) (r_snap (render c));
  inv_request :
    r_pc (render c) = RAcquire ->
    r_frames (render c) = Py.len (r_outdata (render c));
  inv_emitted : Forall atomic (emitted c)
}.

End Threads.

(** A schedule on the small buffers: SPACE starts playback while the
    device already waits for its first block; the UI thread goes on
    during that callback; TAB is pressed before the second block, which
    runs into the end of the buffer. *)
Definition demo_schedule : list (@action spec_float) :=
  repeat UiStep 6 ++ [Getch Key.space; Invoke (Demo.stale 2)]
  ++ repeat UiStep 3
  ++ [RenderStep; UiStep] ++ repeat RenderStep 11
  ++ repeat UiStep 5 ++ [Getch Key.tab] ++ repeat UiStep 3
  ++ [Invoke (Demo.stale 2)] ++ repeat RenderStep 15.

(** ** Keys and blocks in a row *)

(** The key codes [run_ui] reacts to. *)
Definition bound_keys : list Z :=
  [Key.q; Key.Q; Key.space; Key.tab; Key.KEY_LEFT; Key.KEY_RIGHT;
   Key.h; Key.H; Key.l; Key.L].

(** The keys of several turns of the loop of [run_ui], handled one after
    the other with no callback in between. *)
Definition press (total_frames sr : Z) (keys : list Z) (st : PlaybackState)
  : PlaybackState :=
  fold_left (fun s key => handle_key total_frames sr key s) keys st.

Section Playing.

Context {sample : Type} `{Dtype sample}.

(** The device calling [callback] once per block, no key in between; the
    blocks it gets back, joined.  [None]: a callback aborted or raised,
    which ends the stream. *)
Fixpoint play (buffers : list (list (@frame sample))) (st : PlaybackState)
    (blocks : list (list (@frame sample)))
  : option (PlaybackState * list (@frame sample)) :=
  match blocks with
  | [] => Some (st, [])
  | outdata :: rest =>
    match callback buffers st outdata (Py.len outdata) with
    | Returned st' out =>
      match play buffers st' rest with
      | Some (st'', outs) => Some (st'', out ++ outs)
      | None => None
      end
    | CallbackAbort | Raised => None
    end
  end.

End Playing.

(** ** How long the lock is held *)

(** The most moves the audio thread still makes before it has left the
    [with] block, the release included. *)
Definition moves_left (pc : rpc) : nat :=
  match pc with
  | RQuit => 14
  | RPaused => 13
  | RBuf => 12
  | RStart => 11
  | REnd => 10
  | RLength => 9
  | RIfCopy => 8
  | RCopy => 7
  | RSetPos => 6
  | RIfTail => 5
  | RZero => 4
  | RSetPaused => 3
  | RReset => 2
  | RFill => 2
  | RExit _ => 1
  | RIdle | RAcquire | RStopped => 0
  end.

(** What the UI thread has read of its snapshot so far agrees with the
    shared state. *)
Definition snapshot_so_far {sample : Type} (c : @config sample) : Prop :=
  match u_pc (ui c) with
  | USnapPaused => u_active (ui c) = active (shared c)
  | USnapPos =>
    u_active (ui c) = active (shared c) /\
    u_paused (ui c) = paused (shared c)
  | USnapRelease =>
    u_active (ui c) = active (shared c) /\
    u_paused (ui c) = paused (shared c) /\
    u_pos (ui c) = pos (shared c)
  | _ => True
  end.


(** ** Cutoff validation and the filters of [filter_wav.py] *)

(** Python floats: IEEE binary64 on the reference operations of
    [SpecFloat]. *)
Module Binary64.
Definition prec : Z := 53.
Definition emax : Z := 1024.
Definition is_nan (x : spec_float) : bool :=
  match x with S754_nan => true | _ => false end.
(** [n / 2] on an int: the true quotient [n * 2^-1] rounded once to the
    nearest float; Python raises [OverflowError] ([None]) when that is
    beyond the largest float. *)
Definition int_half (n : Z) : option spec_float :=
  match binary_normalize prec emax n (-1) false with
  | S754_infinity _ => None
  | q => Some q
  end.
End Binary64.

(** How a filter stops short of its result: a printed message followed by
    [sys.exit(1)], or the exception of [sr / 2].  [name] is the string
    handed to [validate_cutoff]. *)
Inductive cutoff_name : Type :=
| NameHighpass
| NameLowpass
| NameBandpassLow
| NameBandpassHigh.

Inductive filter_stop : Type :=
| MustBePositive (name : cutoff_name)
| MustBeLessThanNyquist (name : cutoff_name)
| LowMustBeLessThanHigh
| OverflowError.

(** [validate_cutoff(cutoff, sr, name)]: [None] when it returns.
    [cutoff <= 0] compares the float with the int 0. *)
Definition validate_cutoff (cutoff : spec_float) (sr : Z) (name : cutoff_name)
  : option filter_stop :=
  match Binary64.int_half sr with
  | None => Some OverflowError
  | Some nyquist =>
    if SFleb cutoff (S754_zero false) then Some (MustBePositive name)
    else if SFleb nyquist cutoff then Some (MustBeLessThanNyquist name)
    else None
  end.

Section Filters.

(** The arrays and the call into scipy,
    [sosfiltfilt(butter(order, Wn, btype=..., fs=sr, output='sos'), audio,
    axis=0)], are taken as they come: [Wn] is one cutoff for ['high'] and
    ['low'] and the pair for ['band'].  The call gives an array, or [None]
    when scipy raises. *)
Variable array : Type.

Inductive btype : Type := high | low | band.

Variable butter_sosfiltfilt :
  Z -> list spec_float -> btype -> Z -> array -> option array.

Definition apply_highpass (audio : array) (cutoff : spec_float) (sr order : Z)
  : option array + filter_stop :=
  match validate_cutoff cutoff sr NameHighpass with
  | Some e => inr e
  | None => inl (butter_sosfiltfilt order [cutoff] high sr audio)
  end.

Definition apply_lowpass (audio : array) (cutoff : spec_float) (sr order : Z)
  : option array + filter_stop :=
  match validate_cutoff cutoff sr NameLowpass with
  | Some e => inr e
  | None => inl (butter_sosfiltfilt order [cutoff] low sr audio)
  end.

Definition apply_bandpass (audio : array) (lo hi : spec_float) (sr order : Z)
  : option array + filter_stop :=
  match validate_cutoff lo sr NameBandpassLow with
  | Some e => inr e
  | None =>
    match validate_cutoff hi sr NameBandpassHigh with
    | Some e => inr e
    | None =>
      if SFleb hi lo then inr LowMustBeLessThanHigh
      else inl (butter_sosfiltfilt order [lo; hi] band sr audio)
    end
  end.

End Filters.

(** * Properties *)

(** ** Python sequences *)

Section PyFacts.

Context {A : Type}.
Implicit Types l : list A.

Lemma len_nonneg l : 0 <= Py.len l.
Proof. unfold Py.len. lia. Qed.

Lemma adjust_inside n i : 0 <= i <= n -> Py.adjust n i = i.
Proof.
  intros Hi. unfold Py.adjust.
  destruct (Z.ltb_spec i 0); lia.
Qed.

Lemma adjust_beyond n i : 0 <= n <= i -> Py.adjust n i = n.
Proof.
  intros Hi. unfold Py.adjust.
  destruct (Z.ltb_spec i 0); lia.
Qed.

Lemma slice_to_inside l i :
  0 <= i <= Py.len l -> Py.slice_to l i = firstn (Z.to_nat i) l.
Proof. intros Hi. unfold Py.slice_to. now rewrite adjust_inside. Qed.

Lemma slice_from_inside l i :
  0 <= i <= Py.len l -> Py.slice_from l i = skipn (Z.to_nat i) l.
Proof. intros Hi. unfold Py.slice_from. now rewrite adjust_inside. Qed.

Lemma slice_inside l lo hi :
  0 <= lo <= hi -> hi <= Py.len l ->
  Py.slice l lo hi = firstn (Z.to_nat (hi - lo)) (skipn (Z.to_nat lo) l).
Proof.
  intros Hlo Hhi. unfold Py.slice.
  rewrite !adjust_inside by lia. reflexivity.
Qed.

Lemma slice_to_end l lo :
  0 <= lo <= Py.len l -> Py.slice l lo (Py.len l) = skipn (Z.to_nat lo) l.
Proof.
  intros Hlo. rewrite slice_inside by lia.
  apply firstn_all2. rewrite length_skipn. unfold Py.len in *. lia.
Qed.

Lemma index_pair (x y : A) i :
  i = 0 \/ i = 1 -> Py.index [x; y] i = Some (if i =? 0 then x else y).
Proof. intros [-> | ->]; reflexivity. Qed.

End PyFacts.

(** ** The callback, one invocation *)

Section CallbackFacts.

Context {sample : Type} `{Dtype sample}.
Implicit Types (buf outdata : list (@frame sample)) (st : PlaybackState).

Lemma fill0_length outdata : length (fill0 outdata) = length outdata.
Proof. apply length_map. Qed.

Lemma fill0_silent outdata : silent (fill0 outdata).
Proof.
  unfold silent, fill0, zero_frame.
  apply Forall_forall. intros f Hf.
  apply in_map_iff in Hf. destruct Hf as [g [<- _]].
  apply Forall_forall. intros x Hx.
  apply in_map_iff in Hx. now destruct Hx as [y [<- _]].
Qed.

Lemma set_pos_same st : set_pos st (pos st) = st.
Proof. now destruct st. Qed.

(** Assigning as many rows as the target holds. *)
Lemma assign_to_exact outdata n rows :
  0 <= n <= Py.len outdata -> length rows = Z.to_nat n ->
  assign_to outdata n rows = Some (rows ++ skipn (Z.to_nat n) outdata).
Proof.
  intros Hn Hrows. unfold assign_to.
  rewrite slice_to_inside, slice_from_inside by assumption.
  rewrite length_firstn.
  replace (Nat.min (Z.to_nat n) (length outdata)) with (Z.to_nat n)
    by (unfold Py.len in Hn; lia).
  rewrite Hrows, Nat.eqb_refl. reflexivity.
Qed.

Lemma zero_from_app rows rest n :
  length rows = Z.to_nat n -> 0 <= n ->
  zero_from (rows ++ rest) n = rows ++ fill0 rest.
Proof.
  intros Hrows Hn. unfold zero_from.
  assert (Hin : 0 <= n <= Py.len (rows ++ rest))
    by (unfold Py.len; rewrite length_app; lia).
  rewrite slice_to_inside, slice_from_inside by assumption.
  rewrite <- Hrows.
  rewrite firstn_app, skipn_app, Nat.sub_diag, firstn_all, skipn_all.
  simpl. now rewrite app_nil_r.
Qed.

(** A playing callback whose position is in range returns the block
    [render_block] and the state [advance]. *)
Lemma callback_playing buffers buf st outdata frames :
  quit st = false -> paused st = false ->
  Py.index buffers (active st) = Some buf ->
  0 <= pos st <= Py.len buf ->
  frames = Py.len outdata ->
  callback buffers st outdata frames
    = Returned (advance st (Py.len buf) frames)
               (render_block buf (pos st) outdata).
Proof.
  intros Hq Hp Hbuf Hpos Hfr.
  unfold callback, advance, render_block. rewrite Hq, Hp, Hbuf.
  assert (Hlen : length (skipn (Z.to_nat (pos st)) buf)
                 = Z.to_nat (Py.len buf - pos st))
    by (rewrite length_skipn; unfold Py.len in *; lia).
  destruct (Z.leb_spec (pos st + frames) (Py.len buf)) as [Hfit | Hshort].
  - (* the block fits *)
    rewrite Z.min_l by lia.
    replace (pos st + frames - pos st) with frames by lia.
    assert (Hgot : length (firstn (length outdata)
                             (skipn (Z.to_nat (pos st)) buf))
                   = length outdata)
      by (rewrite length_firstn, Hlen; unfold Py.len in *; lia).
    rewrite Hgot, skipn_all. simpl fill0.
    destruct (Z.ltb_spec 0 frames) as [Hsome | Hnone].
    + rewrite slice_inside by lia.
      replace (pos st + frames - pos st) with frames by lia.
      replace (Z.to_nat frames) with (length outdata)
        by (unfold Py.len in Hfr; lia).
      rewrite assign_to_exact.
      * rewrite Z.ltb_irrefl.
        replace (Z.to_nat frames) with (length outdata)
          by (unfold Py.len in Hfr; lia).
        now rewrite skipn_all.
      * unfold Py.len in *. lia.
      * rewrite Hgot. unfold Py.len in Hfr. lia.
    + rewrite Z.ltb_irrefl.
      assert (Hzero : frames = 0) by (pose proof (len_nonneg outdata); lia).
      assert (Hnil : outdata = [])
        by (destruct outdata; [reflexivity | unfold Py.len in Hfr;
                                             simpl in Hfr; lia]).
      subst outdata. rewrite Hzero, Z.add_0_r, set_pos_same. reflexivity.
  - (* the buffer runs out inside the block *)
    rewrite Z.min_r by lia.
    assert (Hlt : (Py.len buf - pos st <? frames) = true)
      by (apply Z.ltb_lt; lia).
    rewrite Hlt.
    assert (Hgot : firstn (length outdata) (skipn (Z.to_nat (pos st)) buf)
                   = skipn (Z.to_nat (pos st)) buf)
      by (apply firstn_all2; rewrite Hlen; unfold Py.len in *; lia).
    rewrite Hgot, Hlen.
    destruct (Z.ltb_spec 0 (Py.len buf - pos st)) as [Hsome | Hnone].
    + rewrite slice_to_end by lia.
      rewrite assign_to_exact by (unfold Py.len in *; first [lia | assumption]).
      rewrite zero_from_app by (assumption || lia).
      reflexivity.
    + assert (Hzero : Py.len buf - pos st = 0) by lia.
      rewrite Hzero in *. simpl Z.to_nat in *.
      apply length_zero_iff_nil in Hlen. rewrite Hlen.
      unfold zero_from. rewrite slice_to_inside, slice_from_inside
        by (pose proof (len_nonneg outdata); lia).
      reflexivity.
Qed.

End CallbackFacts.

(** ** Claims on the transport state *)

(** C1: the A/B toggle (TAB) makes [active] become [1 - active] and
    leaves [pos] (and [paused], [quit]) as they were, in every transport
    state; so after any number of toggles in a row [pos] is what it was
    before the first. *)
Theorem toggle_flips_active_keeps_pos (total_frames sr : Z)
    (st : PlaybackState) :
  let st' := handle_key total_frames sr Key.tab st in
  (active st' = 1 - active st /\
   pos st' = pos st /\ paused st' = paused st /\ quit st' = quit st) /\
  forall n, pos (toggles total_frames sr n st) = pos st.
Proof.
  split.
  - cbn. repeat split.
  - intros n. revert st. induction n as [| n IH]; intros st.
    + reflexivity.
    + cbn [toggles]. rewrite IH. reflexivity.
Qed.

(** Toggling exchanges the two buffers, and twice is no toggle. *)
Lemma toggle_exchanges total_frames sr st :
  (active st = 0 -> active (handle_key total_frames sr Key.tab st) = 1) /\
  (active st = 1 -> active (handle_key total_frames sr Key.tab st) = 0) /\
  toggles total_frames sr 2 st = st.
Proof.
  repeat split; try (intros Hact; cbn; rewrite Hact; reflexivity).
  destruct st as [a p x q]. cbn -[Z.sub]. unfold set_active.
  cbn [active paused pos quit]. f_equal. lia.
Qed.

(** Every seek key keeps all fields but [pos]. *)
Lemma seek_changes_pos_only total_frames sr key st :
  In key seek_keys ->
  let st' := handle_key total_frames sr key st in
  active st' = active st /\ paused st' = paused st /\ quit st' = quit st.
Proof.
  intros Hkey. unfold seek_keys in Hkey. cbn [In] in Hkey.
  repeat (destruct Hkey as [<- | Hkey]; [cbn; auto |]). destruct Hkey.
Qed.

(** C3: from a position in [0, frameCount-1], each of the six seek keys
    (LEFT and RIGHT by one second, h, H and l, L by five) leaves the
    position in [0, frameCount-1], whatever the sample rate (a
    non-negative number of frames): a target before the first frame
    becomes 0, a target after the last frame becomes [frameCount - 1],
    any other target is reached as it is; nothing else in the state
    changes.  Each key is listed with the frames it moves by. *)
Theorem seek_stays_in_range (total_frames sr : Z) (st : PlaybackState) :
  0 <= sr ->
  0 <= pos st <= total_frames - 1 ->
  Forall (fun seek : Z * Z =>
            let st' := handle_key total_frames sr (fst seek) st in
            let target := pos st + snd seek in
            0 <= pos st' <= total_frames - 1 /\
            (target < 0 /\ pos st' = 0 \/
             total_frames - 1 < target /\ pos st' = total_frames - 1 \/
             0 <= target <= total_frames - 1 /\ pos st' = target) /\
            active st' = active st /\ paused st' = paused st /\
            quit st' = quit st)
         [(Key.KEY_LEFT, - sr); (Key.KEY_RIGHT, sr);
          (Key.h, - (5 * sr)); (Key.H, - (5 * sr));
          (Key.l, 5 * sr); (Key.L, 5 * sr)].
Proof.
  intros Hsr Hpos.
  repeat (apply Forall_cons;
          [cbn -[Z.max Z.min Z.add Z.sub Z.mul Z.opp];
           split; [lia |]; split; [lia |]; repeat split |]).
  apply Forall_nil.
Qed.

Lemma seek_stays_in_range_witness :
  let st := {| active := 1; paused := false; pos := 10; quit := false |} in
  (pos (handle_key 100 30 Key.KEY_LEFT st) = 0 /\
   pos (handle_key 100 30 Key.KEY_RIGHT st) = 40 /\
   pos (handle_key 100 30 Key.h st) = 0 /\
   pos (handle_key 100 30 Key.L st) = 99) /\
  Forall (fun seek : Z * Z =>
            let st' := handle_key 100 30 (fst seek) st in
            let target := pos st + snd seek in
            0 <= pos st' <= 100 - 1 /\
            (target < 0 /\ pos st' = 0 \/
             100 - 1 < target /\ pos st' = 100 - 1 \/
             0 <= target <= 100 - 1 /\ pos st' = target) /\
            active st' = active st /\ paused st' = paused st /\
            quit st' = quit st)
         [(Key.KEY_LEFT, - 30); (Key.KEY_RIGHT, 30);
          (Key.h, - (5 * 30)); (Key.H, - (5 * 30));
          (Key.l, 5 * 30); (Key.L, 5 * 30)].
Proof.
  split; [repeat split |].
  apply (@seek_stays_in_range 100 30
           {| active := 1; paused := false; pos := 10; quit := false |}).
  - lia.
  - cbn. lia.
Defined.

(** Seeking clamps: backwards to 0, forwards to the last frame. *)
Lemma seek_clamps total_frames sr st :
  0 <= sr -> 0 <= pos st <= total_frames - 1 ->
  (pos st - sr <= 0 ->
   pos (handle_key total_frames sr Key.KEY_LEFT st) = 0) /\
  (total_frames - 1 <= pos st + sr ->
   pos (handle_key total_frames sr Key.KEY_RIGHT st) = total_frames - 1).
Proof. intros Hsr Hpos. cbn -[Z.max Z.min Z.add Z.sub Z.mul]. lia. Qed.

(** ** Claims on the callback *)

Section CallbackClaims.

Context {sample : Type} `{Dtype sample}.
Implicit Types (buf outdata : list (@frame sample)) (st : PlaybackState).

Lemma render_block_short buf position outdata :
  0 <= position <= Py.len buf ->
  Py.len buf - position <= Py.len outdata ->
  render_block buf position outdata
    = skipn (Z.to_nat position) buf
      ++ fill0 (skipn (Z.to_nat (Py.len buf - position)) outdata).
Proof.
  intros Hpos Hshort. unfold render_block.
  assert (Hlen : length (skipn (Z.to_nat position) buf)
                 = Z.to_nat (Py.len buf - position))
    by (rewrite length_skipn; unfold Py.len in *; lia).
  rewrite firstn_all2 by (rewrite Hlen; unfold Py.len in *; lia).
  now rewrite Hlen.
Qed.

Lemma render_block_length buf position outdata :
  length (render_block buf position outdata) = length outdata.
Proof.
  unfold render_block.
  rewrite length_app, fill0_length, length_skipn, length_firstn. lia.
Qed.

(** A zeroed frame keeps its width, and every slot of it holds the
    constant 0. *)
Lemma zero_frame_repeat (f : @frame sample) :
  zero_frame f = repeat zero (length f).
Proof.
  unfold zero_frame. induction f as [| x f IH]; [reflexivity |].
  cbn [map length repeat]. now rewrite IH.
Qed.

Lemma fill0_zeros outdata :
  fill0 outdata = map (fun f => repeat zero (length f)) outdata.
Proof. unfold fill0. apply map_ext, zero_frame_repeat. Qed.

(** C7: with [quit] false and [paused] true, the callback returns the
    transport state it found and the block it was given with every
    sample of every frame replaced by the constant 0: as many frames,
    each as wide as before. *)
Theorem paused_callback_is_silent (buffers : list (list (@frame sample)))
    st outdata (frames : Z) :
  quit st = false -> paused st = true ->
  callback buffers st outdata frames
    = Returned st (map (fun f => repeat zero (length f)) outdata) /\
  length (map (fun f : @frame sample => repeat zero (length f)) outdata)
    = length outdata.
Proof.
  intros Hq Hp. unfold callback. rewrite Hq, Hp, fill0_zeros.
  split; [reflexivity | apply length_map].
Qed.

(** C2: with [quit] and [paused] false, [pos] in range and fewer frames
    left than requested, the callback returns a block of the requested
    size: first the [frameCount - pos] frames of the active buffer from
    [pos] to its end, then, for each frame of the block that is left, a
    frame of the same width whose every sample is the constant 0.  The
    state it leaves has [paused] true and [pos] 0, [active] and [quit]
    as before. *)
Theorem end_of_buffer_mid_block (buffers : list (list (@frame sample)))
    buf st outdata (frames : Z) :
  quit st = false -> paused st = false ->
  Py.index buffers (active st) = Some buf ->
  frames = Py.len outdata ->
  0 <= pos st <= Py.len buf ->
  pos st + frames > Py.len buf ->
  let available := Z.to_nat (Py.len buf - pos st) in
  let out :=
    skipn (Z.to_nat (pos st)) buf
    ++ map (fun f => repeat zero (length f)) (skipn available outdata) in
  callback buffers st outdata frames
    = Returned {| active := active st; paused := true; pos := 0;
                  quit := false |} out /\
  length (skipn (Z.to_nat (pos st)) buf) = available /\
  length out = length outdata.
Proof.
  intros Hq Hp Hbuf Hfr Hpos Hshort available out.
  assert (Hlen : length (skipn (Z.to_nat (pos st)) buf) = available)
    by (rewrite length_skipn; unfold available, Py.len in *; lia).
  assert (Hout : out = render_block buf (pos st) outdata).
  { rewrite render_block_short by lia. fold available.
    unfold out. now rewrite fill0_zeros. }
  split.
  - rewrite (callback_playing buffers st outdata Hq Hp Hbuf Hpos Hfr).
    unfold advance.
    destruct (Z.leb_spec (pos st + frames) (Py.len buf)); [lia |].
    rewrite Hout. f_equal.
    destruct st as [a p x q]. cbn in Hq |- *. now rewrite Hq.
  - split; [exact Hlen |].
    rewrite Hout. apply render_block_length.
Qed.

(** C9: when exactly [frames] frames are left, the callback returns them
    all, leaves [pos] at [frameCount] and [paused] false; the callback
    after it (any block of at least one frame, no key in between)
    returns its block with every sample of every frame replaced by the
    constant 0, and leaves [paused] true and [pos] 0. *)
Theorem exact_end_defers_auto_pause (buffers : list (list (@frame sample)))
    buf st outdata (frames : Z) outdata2 (frames2 : Z) :
  quit st = false -> paused st = false ->
  Py.index buffers (active st) = Some buf ->
  frames = Py.len outdata ->
  0 <= pos st ->
  Py.len buf - pos st = frames ->
  frames2 = Py.len outdata2 -> 0 < frames2 ->
  let st1 := {| active := active st; paused := false; pos := Py.len buf;
                quit := false |} in
  let st2 := {| active := active st; paused := true; pos := 0;
                quit := false |} in
  callback buffers st outdata frames
    = Returned st1 (skipn (Z.to_nat (pos st)) buf) /\
  length (skipn (Z.to_nat (pos st)) buf) = length outdata /\
  callback buffers st1 outdata2 frames2
    = Returned st2 (map (fun f => repeat zero (length f)) outdata2).
Proof.
  intros Hq Hp Hbuf Hfr Hpos Hexact Hfr2 Hsome st1 st2.
  pose proof (len_nonneg outdata) as Hout.
  assert (Hst1 : set_pos st (Py.len buf) = st1).
  { destruct st as [a p x q]. cbn in Hq, Hp |- *.
    unfold st1. cbn. now rewrite Hq, Hp. }
  split.
  - rewrite (callback_playing buffers st outdata Hq Hp Hbuf) by lia.
    unfold advance.
    destruct (Z.leb_spec (pos st + frames) (Py.len buf)); [| lia].
    replace (pos st + frames) with (Py.len buf) by lia.
    rewrite render_block_short by lia.
    rewrite (@skipn_all2 _ _ outdata) by (unfold Py.len in *; lia).
    cbn [fill0 map]. now rewrite app_nil_r, Hst1.
  - split; [rewrite length_skipn; unfold Py.len in *; lia |].
    rewrite (@callback_playing _ _ buffers buf st1 outdata2 frames2);
      unfold st1; cbn [quit paused active pos]; try reflexivity;
      try assumption; try lia.
    unfold advance. cbn [set_pos set_paused pos active paused quit].
    destruct (Z.leb_spec (Py.len buf + frames2) (Py.len buf)); [lia |].
    rewrite render_block_short by (cbn [Py.len]; lia).
    rewrite (@skipn_all2 _ _ buf) by (unfold Py.len; lia).
    rewrite Z.sub_diag, fill0_zeros. reflexivity.
Qed.

End CallbackClaims.

Lemma paused_callback_is_silent_witness :
  let st := {| active := 1; paused := true; pos := 2; quit := false |} in
  callback [Demo.audio_a; Demo.audio_b] st
           [[Demo.s 9; Demo.s 8]; [Demo.s 7; Demo.s 6]] 2
    = Returned st [[zero; zero]; [zero; zero]] /\
  length [[@zero spec_float _; zero]; [zero; zero]] = 2%nat.
Proof.
  apply (@paused_callback_is_silent _ _ [Demo.audio_a; Demo.audio_b]
           {| active := 1; paused := true; pos := 2; quit := false |}
           [[Demo.s 9; Demo.s 8]; [Demo.s 7; Demo.s 6]] 2);
    reflexivity.
Defined.

Lemma end_of_buffer_mid_block_witness :
  callback [Demo.audio_a; Demo.audio_b] (Demo.playing 1 2)
           (Demo.stale 4) 4
    = Returned {| active := 1; paused := true; pos := 0; quit := false |}
               [[Demo.s 6]; [zero]; [zero]; [zero]] /\
  length [[Demo.s 6]] = 1%nat /\
  length [[Demo.s 6]; [zero]; [zero]; [zero]] = 4%nat.
Proof.
  apply (@end_of_buffer_mid_block _ _ [Demo.audio_a; Demo.audio_b]
           Demo.audio_b (Demo.playing 1 2) (Demo.stale 4) 4);
    try reflexivity; cbn; lia.
Defined.

Lemma exact_end_defers_auto_pause_witness :
  callback [Demo.audio_a; Demo.audio_b] (Demo.playing 0 1)
           (Demo.stale 2) 2
    = Returned (Demo.playing 0 3) [[Demo.s 2]; [Demo.s 3]] /\
  length [[Demo.s 2]; [Demo.s 3]] = 2%nat /\
  callback [Demo.audio_a; Demo.audio_b] (Demo.playing 0 3)
           [[Demo.s 9]; [Demo.s 8]; [Demo.s 7]] 3
    = Returned {| active := 0; paused := true; pos := 0; quit := false |}
               [[zero]; [zero]; [zero]].
Proof.
  apply (@exact_end_defers_auto_pause _ _ [Demo.audio_a; Demo.audio_b]
           Demo.audio_a (Demo.playing 0 1) (Demo.stale 2) 2
           [[Demo.s 9]; [Demo.s 8]; [Demo.s 7]] 3);
    try reflexivity; cbn; lia.
Defined.

(** The blocks of the three cases above, computed. *)
Example callback_runs :
  callback [Demo.audio_a; Demo.audio_b] (Demo.playing 1 2) (Demo.stale 4) 4
    = Returned {| active := 1; paused := true; pos := 0; quit := false |}
               [[Demo.s 6]; [zero]; [zero]; [zero]] /\
  callback [Demo.audio_a; Demo.audio_b] (Demo.playing 0 1) (Demo.stale 2) 2
    = Returned (Demo.playing 0 3) [[Demo.s 2]; [Demo.s 3]] /\
  callback [Demo.audio_a; Demo.audio_b] (Demo.playing 0 3) (Demo.stale 2) 2
    = Returned {| active := 0; paused := true; pos := 0; quit := false |}
               [[zero]; [zero]].
Proof. repeat split. Qed.

(** ** The range of [pos] *)

Lemma handle_key_in_range total_frames sr key st :
  0 < total_frames -> 0 <= sr ->
  pos_in_range total_frames st ->
  pos_in_range total_frames (handle_key total_frames sr key st).
Proof.
  unfold pos_in_range, handle_key. intros Htotal Hsr Hpos.
  repeat match goal with
         | |- context [if ?b then _ else _] => destruct b
         end; cbn [pos set_quit set_paused set_active set_pos]; lia.
Qed.

Lemma handle_key_state_ok total_frames sr key st :
  0 <= total_frames -> 0 <= sr ->
  state_ok total_frames st ->
  state_ok total_frames (handle_key total_frames sr key st).
Proof.
  unfold state_ok, pos_in_range, handle_key. intros Htotal Hsr [Hact Hpos].
  repeat match goal with
         | |- context [if ?b then _ else _] => destruct b
         end;
    cbn [pos active set_quit set_paused set_active set_pos]; lia.
Qed.

Section RangeFacts.

Context {sample : Type} `{Dtype sample}.
Implicit Types (buf outdata : list (@frame sample)) (st : PlaybackState).

Lemma advance_in_range st total frames :
  0 <= frames -> pos_in_range total st ->
  pos_in_range total (advance st total frames).
Proof.
  unfold pos_in_range, advance. intros Hfr Hpos.
  destruct (Z.leb_spec (pos st + frames) total); cbn [pos set_pos]; lia.
Qed.

Lemma advance_active st total frames :
  active (advance st total frames) = active st.
Proof. unfold advance. now destruct (pos st + frames <=? total). Qed.

(** Whatever the callback returns keeps [pos] in range. *)
Lemma callback_in_range (buffers : list (list (@frame sample)))
    buf st outdata frames st' out :
  Py.index buffers (active st) = Some buf ->
  frames = Py.len outdata ->
  pos_in_range (Py.len buf) st ->
  callback buffers st outdata frames = Returned st' out ->
  pos_in_range (Py.len buf) st'.
Proof.
  intros Hbuf Hfr Hpos Hret.
  destruct (quit st) eqn:Hq.
  - unfold callback in Hret. rewrite Hq in Hret. discriminate.
  - destruct (paused st) eqn:Hp.
    + unfold callback in Hret. rewrite Hq, Hp in Hret.
      injection Hret as <- _. assumption.
    + rewrite (callback_playing buffers st outdata Hq Hp Hbuf Hpos Hfr)
        in Hret.
      injection Hret as <- _.
      apply advance_in_range; [| assumption].
      subst frames. apply len_nonneg.
Qed.

(** With buffers of one length, a callback that returns keeps the state
    well formed, and its block is the one of the state it started from. *)
Lemma callback_state_ok (a b : list (@frame sample)) st outdata frames
    st' out :
  Py.len a = Py.len b ->
  state_ok (Py.len a) st ->
  frames = Py.len outdata ->
  callback [a; b] st outdata frames = Returned st' out ->
  state_ok (Py.len a) st' /\
  exists buf,
    Py.index [a; b] (active st) = Some buf /\
    out = (if paused st then fill0 outdata
           else render_block buf (pos st) outdata).
Proof.
  intros Hab [Hact Hpos] Hfr Hret.
  pose proof (index_pair a b Hact) as Hbuf.
  set (buf := if active st =? 0 then a else b) in *.
  assert (Hlen : Py.len buf = Py.len a)
    by (unfold buf; destruct (active st =? 0); congruence).
  destruct (quit st) eqn:Hq.
  { unfold callback in Hret. rewrite Hq in Hret. discriminate. }
  destruct (paused st) eqn:Hp.
  { unfold callback in Hret. rewrite Hq, Hp in Hret.
    injection Hret as <- <-.
    split; [split; assumption |]. exists buf. split; [assumption | reflexivity]. }
  destruct Hpos as [Hpos | [Hempty Hminus]].
  - (* the position is in range *)
    unfold pos_in_range in Hpos. rewrite <- Hlen in Hpos.
    rewrite (callback_playing [a; b] st outdata Hq Hp Hbuf Hpos Hfr) in Hret.
    injection Hret as <- <-.
    split.
    + split; [now rewrite advance_active |].
      left. rewrite <- Hlen. apply advance_in_range.
      * subst frames. apply len_nonneg.
      * exact Hpos.
    + exists buf. split; [assumption | reflexivity].
  - (* no frame at all, and a forward seek has left pos at -1 *)
    assert (Hnil : buf = [])
      by (destruct buf; [reflexivity |
                         unfold Py.len in Hlen, Hempty; simpl in *; lia]).
    unfold callback in Hret. rewrite Hq, Hp, Hbuf, Hnil, Hminus in Hret.
    destruct outdata as [| f rest].
    + subst frames. cbn in Hret. injection Hret as <- <-.
      split; [split; [assumption | right; split; assumption] |].
      exists buf. split; [assumption |]. rewrite Hnil, Hminus. reflexivity.
    + exfalso. subst frames.
      replace (Z.min (-1 + Py.len (f :: rest)) (Py.len [])) with 0 in Hret
        by (unfold Py.len; simpl length; lia).
      replace (0 - -1) with 1 in Hret by lia.
      cbn in Hret. unfold assign_to, Py.slice_to, Py.adjust in Hret.
      replace (Z.min 1 (Py.len (f :: rest))) with 1 in Hret
        by (unfold Py.len; simpl length; lia).
      cbn in Hret. discriminate.
Qed.

End RangeFacts.

(** C4: with buffers of no frame ([frameCount = 0]) the first forward
    seek takes [pos] from 0 to [min(0 - 1, 0 + sr) = -1], out of
    [0..frameCount]; the next callback of a playing state then raises
    instead of returning a block.  With at least one frame no key and no
    callback takes [pos] out of range ([handle_key_in_range],
    [callback_in_range]). *)
Theorem seek_forward_on_empty_pair :
  let empty : list (@frame spec_float) := [] in
  let st := handle_key (Py.len empty) 48000 Key.KEY_RIGHT initial_state in
  pos_in_range (Py.len empty) initial_state /\
  pos st = -1 /\
  ~ pos_in_range (Py.len empty) st /\
  callback [empty; empty] (handle_key (Py.len empty) 48000 Key.space st)
           (Demo.stale 4) 4 = Raised.
Proof.
  cbn zeta. repeat split; try (cbn; lia).
  unfold pos_in_range. cbn. lia.
Qed.

(** ** Claims on loading *)

Section LoaderFacts.

Context {sample : Type} `{Dtype sample}.
Implicit Types (audio : @ndarray sample) (sr : Z).

Lemma truncate_rows (x : @array2 sample) (n : nat) :
  (n <= length (rows x))%nat ->
  rows (truncate x (Z.of_nat n)) = firstn n (rows x).
Proof.
  intros Hn. unfold truncate. cbn [rows].
  rewrite slice_to_inside by (unfold Py.len; lia).
  now rewrite Nat2Z.id.
Qed.

(** C5: two decoded inputs of one sample rate and one channel count, with
    [normalize] off, load into two buffers of [min(len(A), len(B))]
    frames each: that many leading frames of each decoded input,
    unchanged and in order, and nothing after them.  The frames of a
    one-dimensional (mono) input are its samples, one to a frame; the
    sample rate and the channel count returned are the inputs'. *)
Theorem load_truncates_to_shorter audio_a audio_b sr_a sr_b :
  let frames_of audio :=
    match audio with
    | Arr1 data => map (fun x : sample => [x]) data
    | Arr2 _ rs => rs
    end in
  let channels_of audio :=
    match audio with
    | Arr1 _ => 1
    | Arr2 ncols _ => ncols
    end in
  sr_a = sr_b ->
  channels_of audio_a = channels_of audio_b ->
  let n := Nat.min (length (frames_of audio_a))
                   (length (frames_of audio_b)) in
  load_wavs (Some (audio_a, sr_a)) (Some (audio_b, sr_b)) false
    = Loaded {| channels := channels_of audio_a;
                rows := firstn n (frames_of audio_a) |}
             {| channels := channels_of audio_b;
                rows := firstn n (frames_of audio_b) |} sr_a /\
  length (firstn n (frames_of audio_a)) = n /\
  length (firstn n (frames_of audio_b)) = n.
Proof.
  intros frames_of channels_of Hsr Hch n.
  assert (Hfa : rows (ensure_2d audio_a) = frames_of audio_a)
    by (destruct audio_a; reflexivity).
  assert (Hfb : rows (ensure_2d audio_b) = frames_of audio_b)
    by (destruct audio_b; reflexivity).
  assert (Hca : channels (ensure_2d audio_a) = channels_of audio_a)
    by (destruct audio_a; reflexivity).
  assert (Hcb : channels (ensure_2d audio_b) = channels_of audio_b)
    by (destruct audio_b; reflexivity).
  split.
  - unfold load_wavs.
    rewrite Hsr, Z.eqb_refl, Hca, Hcb, Hch, Z.eqb_refl. cbn [negb].
    unfold Py.len. rewrite <- Nat2Z.inj_min, Hfa, Hfb. fold n.
    unfold truncate. rewrite Hfa, Hfb, Hca, Hcb.
    rewrite !slice_to_inside by (unfold Py.len, n; lia).
    rewrite Nat2Z.id, ?Hch. reflexivity.
  - rewrite !length_firstn. unfold n. lia.
Qed.

(** [load_wavs] ends in [sys.exit], and then with code 1, exactly when a
    file is missing, the sample rates differ or the channel counts
    differ. *)
Lemma load_exits_iff (path_a path_b : option (@ndarray sample * Z))
    (do_normalize : bool) :
  (exists msg code, load_wavs path_a path_b do_normalize = SysExit msg code)
  <->
  (path_a = None \/ path_b = None \/
   exists audio_a sr_a audio_b sr_b,
     path_a = Some (audio_a, sr_a) /\ path_b = Some (audio_b, sr_b) /\
     (sr_a <> sr_b \/
      channels (ensure_2d audio_a) <> channels (ensure_2d audio_b))).
Proof.
  destruct path_a as [[audio_a sr_a] |].
  2: { split; [intros _; now left | intros _; cbn; eauto]. }
  destruct path_b as [[audio_b sr_b] |].
  2: { split; [intros _; right; now left | intros _; cbn; eauto]. }
  unfold load_wavs.
  destruct (Z.eqb_spec sr_a sr_b) as [Hsr | Hsr]; cbn [negb].
  2: { split; [| intros _; eauto].
       intros _. right; right. exists audio_a, sr_a, audio_b, sr_b. auto. }
  destruct (Z.eqb_spec (channels (ensure_2d audio_a))
                       (channels (ensure_2d audio_b))) as [Hch | Hch];
    cbn [negb].
  2: { split; [| intros _; eauto].
       intros _. right; right. exists audio_a, sr_a, audio_b, sr_b. auto. }
  split.
  - intros (msg & code & Hexit). exfalso.
    destruct do_normalize; [| discriminate].
    repeat match type of Hexit with
           | match ?x with _ => _ end = _ => destruct x
           end; discriminate.
  - intros [Hnone | [Hnone | (a & sa & b & sb & Ha & Hb & Hdiff)]];
      try discriminate.
    injection Ha as <- <-. injection Hb as <- <-.
    destruct Hdiff; contradiction.
Qed.

Lemma load_exit_code (path_a path_b : option (@ndarray sample * Z))
    (do_normalize : bool) msg code :
  load_wavs path_a path_b do_normalize = SysExit msg code -> code = 1.
Proof.
  unfold load_wavs. intros Hexit.
  repeat match type of Hexit with
         | match ?x with _ => _ end = _ => destruct x
         | (if ?x then _ else _) = _ => destruct x
         | (let (_, _) := ?x in _) = _ => destruct x
         end; try discriminate; now injection Hexit.
Qed.


(** With [normalize] on, each buffer is [normalize_peak] of its own
    truncated input. *)
Lemma load_normalizes_each audio_a audio_b sr_a sr_b a b sr :
  load_wavs (Some (audio_a, sr_a)) (Some (audio_b, sr_b)) true
    = Loaded a b sr ->
  let n := Z.min (Py.len (rows (ensure_2d audio_a)))
                 (Py.len (rows (ensure_2d audio_b))) in
  normalize_peak (truncate (ensure_2d audio_a) n) = Some a /\
  normalize_peak (truncate (ensure_2d audio_b) n) = Some b.
Proof.
  unfold load_wavs.
  destruct (negb (sr_a =? sr_b)); [discriminate |].
  destruct (negb (channels (ensure_2d audio_a)
                  =? channels (ensure_2d audio_b))); [discriminate |].
  destruct (normalize_peak (truncate (ensure_2d audio_a) _)) as [a' |];
    [| discriminate].
  destruct (normalize_peak (truncate (ensure_2d audio_b) _)) as [b' |];
    [| discriminate].
  intros Hload. injection Hload as <- <- _. split; reflexivity.
Qed.


(** What [load_wavs] returns has two buffers of one length. *)
Lemma loaded_same_length (path_a path_b : option (@ndarray sample * Z))
    (do_normalize : bool) a b sr :
  load_wavs path_a path_b do_normalize = Loaded a b sr ->
  length (rows a) = length (rows b).
Proof.
  destruct path_a as [[audio_a sr_a] |]; [| discriminate].
  destruct path_b as [[audio_b sr_b] |]; [| discriminate].
  unfold load_wavs.
  destruct (negb (sr_a =? sr_b)); [discriminate |].
  destruct (negb (channels (ensure_2d audio_a)
                  =? channels (ensure_2d audio_b))); [discriminate |].
  set (n := Z.min _ _).
  assert (Hn : exists k, n = Z.of_nat k /\
                 (k <= length (rows (ensure_2d audio_a)))%nat /\
                 (k <= length (rows (ensure_2d audio_b)))%nat).
  { exists (Nat.min (length (rows (ensure_2d audio_a)))
                    (length (rows (ensure_2d audio_b)))).
    unfold n, Py.len. rewrite Nat2Z.inj_min. repeat split; lia. }
  destruct Hn as (k & -> & Hka & Hkb).
  assert (Hlen : length (rows (truncate (ensure_2d audio_a) (Z.of_nat k)))
                 = length (rows (truncate (ensure_2d audio_b) (Z.of_nat k))))
    by (rewrite !truncate_rows, !length_firstn by assumption; lia).
  destruct do_normalize.
  - unfold normalize_peak.
    destruct (abs_max (truncate (ensure_2d audio_a) (Z.of_nat k)));
      [| discriminate].
    destruct (abs_max (truncate (ensure_2d audio_b) (Z.of_nat k)));
      [| destruct (gt s zero); discriminate].
    intros Hload.
    destruct (gt s zero), (gt s0 zero); injection Hload as <- <- _;
      cbn [rows]; rewrite ?length_map; exact Hlen.
  - intros Hload. injection Hload as <- <- _. exact Hlen.
Qed.

End LoaderFacts.

Lemma load_truncates_to_shorter_witness :
  (load_wavs (Some (Arr1 [Demo.s 1; Demo.s 2; Demo.s 3], 48000))
             (Some (Arr2 1 [[Demo.s 4]; [Demo.s 5]], 48000)) false
     = Loaded {| channels := 1; rows := [[Demo.s 1]; [Demo.s 2]] |}
              {| channels := 1; rows := [[Demo.s 4]; [Demo.s 5]] |} 48000 /\
   length [[Demo.s 1]; [Demo.s 2]] = 2%nat /\
   length [[Demo.s 4]; [Demo.s 5]] = 2%nat) /\
  (load_wavs (Some (Arr2 2 [[Demo.s 1; Demo.s 2]], 44100))
             (Some (Arr2 2 [[Demo.s 3; Demo.s 4]; [Demo.s 5; Demo.s 6]],
                    44100)) false
     = Loaded {| channels := 2; rows := [[Demo.s 1; Demo.s 2]] |}
              {| channels := 2; rows := [[Demo.s 3; Demo.s 4]] |} 44100 /\
   length [[Demo.s 1; Demo.s 2]] = 1%nat /\
   length [[Demo.s 3; Demo.s 4]] = 1%nat).
Proof.
  split.
  - apply (@load_truncates_to_shorter _ _
             (Arr1 [Demo.s 1; Demo.s 2; Demo.s 3])
             (Arr2 1 [[Demo.s 4]; [Demo.s 5]]) 48000 48000); reflexivity.
  - apply (@load_truncates_to_shorter _ _
             (Arr2 2 [[Demo.s 1; Demo.s 2]])
             (Arr2 2 [[Demo.s 3; Demo.s 4]; [Demo.s 5; Demo.s 6]])
             44100 44100); reflexivity.
Defined.



(** The loader on small inputs. *)
Example load_runs :
  load_wavs (Some (Arr1 [Demo.s 1; Demo.s 2; Demo.s 3], 48000))
            (Some (Arr2 1 [[Demo.s 4]; [Demo.s 5]], 48000)) false
    = Loaded {| channels := 1; rows := [[Demo.s 1]; [Demo.s 2]] |}
             {| channels := 1; rows := [[Demo.s 4]; [Demo.s 5]] |} 48000 /\
  load_wavs (Some (Arr1 [Demo.s 1], 48000))
            (Some (Arr1 [Demo.s 1], 44100)) false
    = SysExit (SampleRatesDiffer 48000 44100) 1 /\
  load_wavs (Some (Arr1 [Demo.s 1], 48000))
            (Some (Arr2 2 [[Demo.s 1; Demo.s 1]], 48000)) false
    = SysExit (ChannelCountsDiffer 1 2) 1 /\
  load_wavs (sample := spec_float) None (Some (Arr1 [Demo.s 1], 48000)) true
    = SysExit FileANotFound 1.
Proof. repeat split. Qed.

(** C8: two files that exist, with one sample rate and one channel
    count, one of them holding no frame, loaded with [normalize] on: both
    buffers are cut to no frame, [np.abs(audio).max()] has nothing to
    reduce, and the [ValueError] ends [load_wavs]; no pair is returned.
    The same files load when [normalize] is off. *)
Theorem load_normalize_of_empty_input_raises :
  let path_a : option (@ndarray spec_float * Z) := Some (Arr1 [], 48000) in
  let path_b := Some (Arr1 [Demo.s 1; Demo.s 2], 48000) in
  load_wavs path_a path_b true = ValueError /\
  load_wavs path_a path_b false
    = Loaded {| channels := 1; rows := [] |}
             {| channels := 1; rows := [] |} 48000.
Proof. split; reflexivity. Qed.

(** ** The two threads *)

Section ThreadFacts.

Context {sample : Type} `{Dtype sample}.

Variables audio_a audio_b : list (@frame sample).
Variable sr : Z.

Hypothesis same_length : Py.len audio_a = Py.len audio_b.
Hypothesis rate_nonneg : 0 <= sr.

Local Abbreviation Stmt := (render_stmt audio_a audio_b).
Local Abbreviation Finish := (finish audio_a audio_b).
Local Abbreviation Agrees := (agrees audio_a audio_b).
Local Abbreviation Inv := (invariant audio_a audio_b).
Local Abbreviation Step := (step audio_a audio_b sr).
Local Abbreviation Run := (run audio_a audio_b sr).

Lemma render_stmt_at_exit sh (rl : @rlocal sample) k :
  r_pc rl = RExit k -> Stmt sh rl = (sh, rl).
Proof. intros Hpc. unfold render_stmt. now rewrite Hpc. Qed.

Lemma finish_at_exit n sh (rl : @rlocal sample) k :
  r_pc rl = RExit k -> Finish n (sh, rl) = (sh, rl).
Proof.
  intros Hpc. induction n as [| n IH]; [reflexivity |].
  cbn [finish fst snd].
  now rewrite (render_stmt_at_exit sh rl Hpc).
Qed.

Lemma finish_succ n (x : PlaybackState * @rlocal sample) :
  Finish (S n) x = Stmt (fst (Finish n x)) (snd (Finish n x)).
Proof.
  revert x. induction n as [| n IH]; intros x.
  - cbn [finish]. now destruct (Stmt (fst x) (snd x)).
  - change (Finish (S (S n)) x)
      with (let (sh, rl) := Stmt (fst x) (snd x) in Finish (S n) (sh, rl)).
    destruct (Stmt (fst x) (snd x)) as [sh rl] eqn:Hstmt.
    rewrite IH. cbn [finish]. now rewrite Hstmt.
Qed.

Lemma agrees_at_exit (x : PlaybackState * @rlocal sample) :
  Agrees x -> exists k, r_pc (snd x) = RExit k.
Proof.
  unfold agrees. destruct (r_pc (snd x)); try contradiction.
  eauto.
Qed.

(** A statement of the callback leaves where it is heading unchanged. *)
Lemma agrees_after_stmt sh (rl : @rlocal sample) :
  Agrees (Finish 14 (sh, rl)) -> Agrees (Finish 14 (Stmt sh rl)).
Proof.
  intros Hag.
  assert (Hstep : Finish 14 (Stmt sh rl) = Finish 15 (sh, rl)).
  { change (Finish 15 (sh, rl))
      with (let (sh', rl') := Stmt sh rl in Finish 14 (sh', rl')).
    now destruct (Stmt sh rl). }
  rewrite Hstep, finish_succ.
  destruct (agrees_at_exit _ Hag) as [k Hk].
  destruct (Finish 14 (sh, rl)) as [sh' rl'] eqn:Hfin.
  cbn [fst snd] in *. now rewrite (render_stmt_at_exit sh' rl' Hk).
Qed.

Lemma render_stmt_history sh (rl : @rlocal sample) :
  r_snap (snd (Stmt sh rl)) = r_snap rl /\
  r_given (snd (Stmt sh rl)) = r_given rl.
Proof.
  unfold render_stmt.
  destruct (r_pc rl); try (split; reflexivity).
  - destruct (Py.index (buffers audio_a audio_b) (active sh));
      split; reflexivity.
  - destruct (assign_to _ _ _); split; reflexivity.
Qed.

Lemma render_stmt_stays_inside sh (rl : @rlocal sample) :
  render_in_cs (r_pc rl) = true ->
  render_in_cs (r_pc (snd (Stmt sh rl))) = true.
Proof.
  unfold render_stmt.
  destruct (r_pc rl) eqn:Hpc; intros Hin; try discriminate;
    cbn [snd r_goto r_pc render_in_cs];
    try reflexivity.
  - now destruct (quit sh).
  - now destruct (paused sh).
  - now destruct (Py.index _ _).
  - now destruct (0 <? r_length rl).
  - now destruct (assign_to _ _ _).
  - now destruct (r_length rl <? r_frames rl).
  - now rewrite Hpc.
Qed.

Lemma finish_step n sh (rl : @rlocal sample) :
  Finish (S n) (sh, rl) = Finish n (Stmt sh rl).
Proof.
  change (Finish (S n) (sh, rl))
    with (let (sh', rl') := Stmt sh rl in Finish n (sh', rl')).
  now destruct (Stmt sh rl).
Qed.

(** One statement of the callback, run on the state at hand. *)
Ltac stmt :=
  rewrite finish_step;
  match goal with
  | |- context [render_stmt ?a ?b ?sh ?rl] =>
    let next :=
      eval cbv beta iota delta
               [render_stmt r_goto r_set_outdata r_set_buf r_set_start
                r_set_end r_set_length r_pc r_outdata r_frames r_buf
                r_start r_end r_length r_snap r_given]
      in (render_stmt a b sh rl) in
    replace (render_stmt a b sh rl) with next by reflexivity
  end.

(** The end of the [with] block is reached. *)
Ltac done_with k :=
  try match goal with
      | |- context [finish _ _ ?n (?sh, ?rl)] =>
        rewrite (@finish_at_exit n sh rl k eq_refl)
      end;
  unfold agrees, callback;
  cbv beta iota zeta delta [fst snd r_pc r_outdata r_snap r_given].

(** Taken alone from the first statement, the callback's statements
    compute [callback]. *)
Lemma entry_agrees sh outdata buf0 start0 end0 length0 :
  Agrees (Finish 14 (sh, mkRlocal RQuit outdata (Py.len outdata) buf0
                                  start0 end0 length0 sh outdata)).
Proof.
  stmt. destruct (quit sh) eqn:Hq.
  { done_with ExitAbort. rewrite Hq. split; reflexivity. }
  stmt. destruct (paused sh) eqn:Hp.
  { stmt. done_with ExitReturn. rewrite Hq, Hp. reflexivity. }
  stmt. destruct (Py.index (buffers audio_a audio_b) (active sh))
    as [buf |] eqn:Hbuf.
  2: { done_with ExitRaise. rewrite Hq, Hp, Hbuf. split; reflexivity. }
  stmt. stmt. stmt. stmt.
  destruct (0 <? Z.min (pos sh + Py.len outdata) (Py.len buf) - pos sh)
    eqn:Hcopy.
  - stmt.
    destruct (assign_to outdata
                (Z.min (pos sh + Py.len outdata) (Py.len buf) - pos sh)
                (Py.slice buf (pos sh)
                   (Z.min (pos sh + Py.len outdata) (Py.len buf))))
      as [out |] eqn:Hassign.
    2: { done_with ExitRaise. rewrite Hq, Hp, Hbuf, Hcopy, Hassign.
         split; reflexivity. }
    stmt. stmt.
    destruct (Z.min (pos sh + Py.len outdata) (Py.len buf) - pos sh
              <? Py.len outdata) eqn:Htail.
    + stmt. stmt. stmt. done_with ExitReturn.
      rewrite Hq, Hp, Hbuf, Hcopy, Hassign, Htail. reflexivity.
    + done_with ExitReturn.
      rewrite Hq, Hp, Hbuf, Hcopy, Hassign, Htail. reflexivity.
  - stmt.
    destruct (Z.min (pos sh + Py.len outdata) (Py.len buf) - pos sh
              <? Py.len outdata) eqn:Htail.
    + stmt. stmt. stmt. done_with ExitReturn.
      rewrite Hq, Hp, Hbuf, Hcopy, Htail. reflexivity.
    + done_with ExitReturn.
      rewrite Hq, Hp, Hbuf, Hcopy, Htail. reflexivity.
Qed.

Ltac fields :=
  constructor;
  cbn [shared lock render ui emitted r_pc r_goto u_pc u_goto
       render_in_cs ui_in_cs r_frames r_outdata r_snap r_given].

Ltac settle :=
  try first
      [ assumption | discriminate | reflexivity
      | intros; first [assumption | discriminate | congruence | now auto] ].

Lemma initial_invariant : Inv initial_config.
Proof.
  unfold initial_config. fields; try discriminate.
  - intros _. split; [now left |].
    left. unfold pos_in_range, initial_state. cbn [pos].
    pose proof (len_nonneg audio_a). lia.
  - constructor.
Qed.

(** The device asking for a block. *)
Lemma invoke_invariant c outdata c' :
  Inv c -> Step c (Invoke outdata) = Some c' -> Inv c'.
Proof.
  intros [Hrl Hul Hmx Hout Hin Hreq Hem] Hstep. cbn [step] in Hstep.
  destruct (r_pc (render c)) eqn:Hpc; try discriminate.
  injection Hstep as <-.
  fields; try discriminate; try assumption; try reflexivity.
Qed.

(** [getch] returning a key. *)
Lemma getch_invariant c key c' :
  Inv c -> Step c (Getch key) = Some c' -> Inv c'.
Proof.
  intros [Hrl Hul Hmx Hout Hin Hreq Hem] Hstep. cbn [step] in Hstep.
  destruct (u_pc (ui c)) eqn:Hupc; try discriminate.
  injection Hstep as <-.
  fields; try assumption.
  - destruct (key =? -1); discriminate.
  - destruct (key =? -1); discriminate.
Qed.

(** A statement of the callback inside the [with] block. *)
Lemma stmt_invariant c sh' rl' :
  Inv c ->
  render_in_cs (r_pc (render c)) = true ->
  Stmt (shared c) (render c) = (sh', rl') ->
  Inv (mkConfig sh' (lock c) rl' (ui c) (emitted c)).
Proof.
  intros [Hrl Hul Hmx Hout Hin Hreq Hem] Hcs Hstmt.
  pose proof (render_stmt_stays_inside (shared c) (render c) Hcs) as Hstay.
  pose proof (render_stmt_history (shared c) (render c)) as [Hsnap Hgiven].
  rewrite Hstmt in Hstay, Hsnap, Hgiven. cbn [snd] in Hstay, Hsnap, Hgiven.
  destruct (Hin Hcs) as [Hag Hok].
  fields; try assumption.
  - intros _. now apply Hrl.
  - intros _. now apply Hmx.
  - intros Hno. congruence.
  - intros _. split.
    + rewrite <- Hstmt. now apply agrees_after_stmt.
    + now rewrite Hsnap.
  - intros Hacq. rewrite Hacq in Hstay. discriminate.
Qed.

(** A move of the audio thread. *)
Lemma render_move_invariant c c' :
  Inv c -> Step c RenderStep = Some c' -> Inv c'.
Proof.
  intros Hinv Hstep. cbn [step] in Hstep. unfold render_move in Hstep.
  destruct (r_pc (render c)) eqn:Hpc; try discriminate;
    try (destruct (Stmt (shared c) (render c)) as [sh' rl'] eqn:Hstmt;
         injection Hstep as <-;
         apply stmt_invariant;
         [assumption | now rewrite Hpc | assumption]).
  - (* taking the lock *)
    destruct Hinv as [Hrl Hul Hmx Hout Hin Hreq Hem].
    destruct (lock c) eqn:Hlock; [discriminate |].
    injection Hstep as <-.
    fields; try reflexivity; try discriminate; try assumption.
    + intros _ Hui. apply Hul in Hui. discriminate.
    + intros _. split.
      * rewrite (Hreq Hpc). apply entry_agrees.
      * apply Hout. now rewrite Hpc.
  - (* leaving the with block *)
    destruct Hinv as [Hrl Hul Hmx Hout Hin Hreq Hem].
    assert (Hcs : render_in_cs (r_pc (render c)) = true)
      by now rewrite Hpc.
    destruct (Hin Hcs) as [Hag Hok].
    rewrite (finish_at_exit 14 (shared c) (render c) Hpc) in Hag.
    unfold agrees in Hag. cbn [fst snd] in Hag. rewrite Hpc in Hag.
    destruct k; injection Hstep as <-.
    + (* the block is handed over *)
      destruct (@callback_state_ok _ _ audio_a audio_b _ _ _ _ _
                  same_length Hok eq_refl Hag)
        as [Hafter _].
      fields; try discriminate.
      * intros Hui. exfalso. now apply Hmx.
      * intros _. exact Hafter.
      * apply Forall_app. split; [assumption |].
        constructor; [| constructor]. split; assumption.
    + destruct Hag as [_ Hsame].
      fields; try discriminate; try assumption.
      * intros Hui. exfalso. now apply Hmx.
      * intros _. now rewrite Hsame.
    + destruct Hag as [_ Hsame].
      fields; try discriminate; try assumption.
      * intros Hui. exfalso. now apply Hmx.
      * intros _. now rewrite Hsame.
Qed.

(** A move of the UI thread. *)
Lemma ui_move_invariant c c' :
  Inv c -> Step c UiStep = Some c' -> Inv c'.
Proof.
  intros [Hrl Hul Hmx Hout Hin Hreq Hem] Hstep.
  cbn [step] in Hstep. unfold ui_move in Hstep.
  assert (Houtside : ui_in_cs (u_pc (ui c)) = true ->
                     render_in_cs (r_pc (render c)) = false).
  { intros Hui. destruct (render_in_cs (r_pc (render c))) eqn:Hcs;
      [exfalso; now apply Hmx | reflexivity]. }
  assert (Hfree : lock c = false ->
                  render_in_cs (r_pc (render c)) = false).
  { intros Hlock. destruct (render_in_cs (r_pc (render c))) eqn:Hcs;
      [rewrite (Hrl eq_refl) in Hlock; discriminate | reflexivity]. }
  destruct (u_pc (ui c)) eqn:Hupc; try discriminate.
  - (* while not state.quit *)
    injection Hstep as <-.
    destruct (quit (shared c)); fields; settle.
  - (* taking the lock for the snapshot *)
    destruct (lock c) eqn:Hlock; [discriminate |].
    injection Hstep as <-. specialize (Hfree eq_refl).
    fields; settle.
  - injection Hstep as <-. specialize (Houtside eq_refl).
    fields; settle.
  - injection Hstep as <-. specialize (Houtside eq_refl).
    fields; settle.
  - injection Hstep as <-. specialize (Houtside eq_refl).
    fields; settle.
  - (* leaving the with block of the snapshot *)
    injection Hstep as <-. specialize (Houtside eq_refl).
    fields; settle.
  - (* taking the lock for the key *)
    destruct (lock c) eqn:Hlock; [discriminate |].
    injection Hstep as <-. specialize (Hfree eq_refl).
    fields; settle.
  - (* the key *)
    injection Hstep as <-. specialize (Houtside eq_refl).
    fields; settle.
    intros _. apply handle_key_state_ok;
      [apply len_nonneg | assumption | now apply Hout].
  - (* leaving the with block of the key *)
    injection Hstep as <-. specialize (Houtside eq_refl).
    fields; settle.
Qed.

Lemma step_invariant c a c' : Inv c -> Step c a = Some c' -> Inv c'.
Proof.
  destruct a.
  - apply invoke_invariant.
  - apply render_move_invariant.
  - apply getch_invariant.
  - apply ui_move_invariant.
Qed.

Lemma run_invariant schedule c c' :
  Inv c -> Run c schedule = Some c' -> Inv c'.
Proof.
  revert c. induction schedule as [| a rest IH]; intros c Hinv Hrun.
  - cbn in Hrun. now injection Hrun as <-.
  - cbn [run] in Hrun.
    destruct (Step c a) as [c1 |] eqn:Hstep; [| discriminate].
    apply (IH c1); [| assumption].
    eapply step_invariant; eassumption.
Qed.

(** The lock is held by at most one thread at any time. *)
Lemma mutual_exclusion schedule c :
  Run initial_config schedule = Some c ->
  render_in_cs (r_pc (render c)) && ui_in_cs (u_pc (ui c)) = false.
Proof.
  intros Hrun.
  pose proof (run_invariant schedule initial_invariant Hrun) as Hinv.
  destruct Hinv as [_ _ Hmx _ _ _ _].
  destruct (render_in_cs _) eqn:Hr, (ui_in_cs _) eqn:Hu; try reflexivity.
  exfalso. now apply Hmx.
Qed.

End ThreadFacts.

(** C10: in every run of the two threads (any schedule of their
    statements, with the buffers of one length and a sample rate that is
    not negative), every block handed to the device is the block that
    [callback] computes, uninterrupted, from the shared state found when
    the lock was taken, and leaves the shared state that [callback]
    returns; so the block is silence when that one snapshot is paused and
    otherwise frames of the snapshot's one active buffer, from the
    snapshot's position, followed by zeros. *)
Theorem blocks_come_from_one_snapshot {sample : Type} `{Dtype sample}
    (audio_a audio_b : list (@frame sample)) (sr : Z)
    (schedule : list (@action sample)) (c : @config sample) :
  Py.len audio_a = Py.len audio_b ->
  0 <= sr ->
  run audio_a audio_b sr initial_config schedule = Some c ->
  Forall (fun e =>
            callback (buffers audio_a audio_b) (e_snapshot e) (e_given e)
                     (Py.len (e_given e))
              = Returned (e_after e) (e_block e) /\
            from_one_snapshot audio_a audio_b e)
         (emitted c).
Proof.
  intros Hsame Hsr Hrun.
  pose proof (run_invariant Hsame Hsr schedule
                (initial_invariant audio_a audio_b) Hrun) as Hinv.
  eapply Forall_impl; [| exact (inv_emitted Hinv)].
  intros e [Hcall Hok]. split; [exact Hcall |].
  destruct (@callback_state_ok _ _ audio_a audio_b _ _ _ _ _
              Hsame Hok eq_refl Hcall)
    as [_ (buf & Hbuf & Hblock)].
  exists buf. split; assumption.
Qed.

Lemma blocks_come_from_one_snapshot_witness :
  exists c,
    run Demo.audio_a Demo.audio_b 48000 initial_config demo_schedule
      = Some c /\
    map (@e_block _) (emitted c)
      = [[[Demo.s 1]; [Demo.s 2]]; [[Demo.s 6]; [zero]]] /\
    Forall (fun e =>
              callback (buffers Demo.audio_a Demo.audio_b)
                       (e_snapshot e) (e_given e) (Py.len (e_given e))
                = Returned (e_after e) (e_block e) /\
              from_one_snapshot Demo.audio_a Demo.audio_b e)
           (emitted c).
Proof.
  destruct (run Demo.audio_a Demo.audio_b 48000 initial_config
              demo_schedule) as [c |] eqn:Hrun;
    [| vm_compute in Hrun; discriminate].
  exists c. split; [reflexivity |]. split.
  - vm_compute in Hrun. injection Hrun as <-. reflexivity.
  - apply (@blocks_come_from_one_snapshot _ _ Demo.audio_a Demo.audio_b
             48000 demo_schedule c); [reflexivity | lia | exact Hrun].
Defined.

(** While the callback holds the lock the UI thread cannot take it. *)
Example ui_waits_for_the_callback :
  match run Demo.audio_a Demo.audio_b 48000 initial_config
            (repeat UiStep 6 ++ [Getch Key.tab; Invoke (Demo.stale 2);
                                 RenderStep; RenderStep]) with
  | Some c =>
    lock c = true /\ u_pc (ui c) = UAcquire /\
    step Demo.audio_a Demo.audio_b 48000 c UiStep = None
  | None => False
  end.
Proof. vm_compute. repeat split. Qed.

(** * Further properties *)

(** ** Keys *)

Lemma handle_left total_frames sr st :
  handle_key total_frames sr Key.KEY_LEFT st
  = set_pos st (Z.max 0 (pos st - sr)).
Proof. reflexivity. Qed.

Lemma handle_right total_frames sr st :
  handle_key total_frames sr Key.KEY_RIGHT st
  = set_pos st (Z.min (total_frames - 1) (pos st + sr)).
Proof. reflexivity. Qed.

Lemma handle_h total_frames sr st :
  handle_key total_frames sr Key.h st
  = set_pos st (Z.max 0 (pos st - 5 * sr)).
Proof. reflexivity. Qed.

Lemma handle_l total_frames sr st :
  handle_key total_frames sr Key.l st
  = set_pos st (Z.min (total_frames - 1) (pos st + 5 * sr)).
Proof. reflexivity. Qed.

Lemma handle_tab total_frames sr st :
  handle_key total_frames sr Key.tab st = set_active st (1 - active st).
Proof. reflexivity. Qed.

Lemma handle_space total_frames sr st :
  handle_key total_frames sr Key.space st
  = set_paused st (negb (paused st)).
Proof. reflexivity. Qed.

Lemma set_pos_eq st p p' : p = p' -> set_pos st p = set_pos st p'.
Proof. now intros ->. Qed.

(** X1: a key code that is none of q, Q, SPACE, TAB, LEFT, RIGHT, h, H,
    l, L changes nothing in the transport state. *)
Theorem unknown_key_is_ignored (total_frames sr key : Z)
    (st : PlaybackState) :
  ~ In key bound_keys ->
  handle_key total_frames sr key st = st.
Proof.
  intros Hkey. unfold handle_key.
  repeat match goal with
         | |- context [key =? ?k] =>
           destruct (Z.eqb_spec key k) as [-> | _];
           [exfalso; apply Hkey; unfold bound_keys; cbn [In]; tauto |]
         end.
  reflexivity.
Qed.

Lemma unknown_key_is_ignored_witness :
  handle_key 48000 48000 120 (Demo.playing 1 7) = Demo.playing 1 7.
Proof.
  apply (@unknown_key_is_ignored 48000 48000 120 (Demo.playing 1 7)).
  unfold bound_keys. cbn. intuition discriminate.
Defined.

(** X2: two presses of SPACE give back the state as it was, and one
    press changes [paused] only. *)
Theorem space_twice_is_identity (total_frames sr : Z)
    (st : PlaybackState) :
  press total_frames sr [Key.space; Key.space] st = st /\
  active (handle_key total_frames sr Key.space st) = active st /\
  pos (handle_key total_frames sr Key.space st) = pos st /\
  quit (handle_key total_frames sr Key.space st) = quit st /\
  paused (handle_key total_frames sr Key.space st) = negb (paused st).
Proof.
  destruct st as [a p x q]. cbn. rewrite negb_involutive. repeat split.
Qed.

(** X3: with a sample rate that is not negative, h is five LEFT in a row
    and l is five RIGHT in a row, clamping included. *)
Theorem five_second_seek_is_five_one_second_seeks (total_frames sr : Z)
    (st : PlaybackState) :
  0 <= sr ->
  press total_frames sr (repeat Key.KEY_LEFT 5) st
    = handle_key total_frames sr Key.h st /\
  press total_frames sr (repeat Key.KEY_RIGHT 5) st
    = handle_key total_frames sr Key.l st.
Proof.
  intros Hsr. unfold press. cbn [repeat fold_left].
  rewrite !handle_left, !handle_right, handle_h, handle_l.
  destruct st as [a p x q]. unfold set_pos. cbn [active paused pos quit].
  split; f_equal; lia.
Qed.

Lemma five_second_seek_is_five_one_second_seeks_witness :
  press 100 30 (repeat Key.KEY_LEFT 5) (Demo.playing 0 70)
    = handle_key 100 30 Key.h (Demo.playing 0 70) /\
  press 100 30 (repeat Key.KEY_RIGHT 5) (Demo.playing 0 70)
    = handle_key 100 30 Key.l (Demo.playing 0 70).
Proof.
  apply (@five_second_seek_is_five_one_second_seeks 100 30
           (Demo.playing 0 70)).
  lia.
Defined.

(** X4: a backward seek that is not clamped is undone by the forward
    seek: from a position of at least one second and at most the last
    frame, LEFT then RIGHT gives back the state as it was. *)
Theorem unclamped_seek_is_undone (total_frames sr : Z)
    (st : PlaybackState) :
  sr <= pos st <= total_frames - 1 ->
  press total_frames sr [Key.KEY_LEFT; Key.KEY_RIGHT] st = st.
Proof.
  unfold press. cbn [fold_left]. rewrite !handle_left, !handle_right.
  destruct st as [a p x q]. unfold set_pos. cbn [active paused pos quit].
  intros Hpos; f_equal; lia.
Qed.

Lemma unclamped_seek_is_undone_witness :
  press 100 30 [Key.KEY_LEFT; Key.KEY_RIGHT] (Demo.playing 0 70)
    = Demo.playing 0 70.
Proof.
  apply (@unclamped_seek_is_undone 100 30 (Demo.playing 0 70)).
  cbn. lia.
Defined.

(** The same the other way round, RIGHT then LEFT, from a position at
    least one second before the last frame. *)
Lemma unclamped_forward_seek_is_undone total_frames sr st :
  0 <= pos st <= total_frames - 1 - sr ->
  press total_frames sr [Key.KEY_RIGHT; Key.KEY_LEFT] st = st.
Proof.
  unfold press. cbn [fold_left]. rewrite !handle_left, !handle_right.
  destruct st as [a p x q]. unfold set_pos. cbn [active paused pos quit].
  intros Hpos; f_equal; lia.
Qed.

(** A clamped seek is not undone: from the first frame LEFT stays, and
    RIGHT then moves on. *)
Example clamped_seek_is_not_undone :
  press 100 30 [Key.KEY_LEFT; Key.KEY_RIGHT] (Demo.playing 0 10)
    = Demo.playing 0 30.
Proof. reflexivity. Qed.

(** No key unsets [quit]. *)
Lemma handle_key_keeps_quit total_frames sr key st :
  quit st = true -> quit (handle_key total_frames sr key st) = true.
Proof.
  intros Hq. unfold handle_key.
  repeat match goal with
         | |- context [if ?b then _ else _] => destruct b
         end; cbn [quit set_quit set_paused set_active set_pos];
    first [reflexivity | exact Hq].
Qed.

(** X5: once q has been pressed, whatever keys follow, [quit] stays set
    and the callback raises [CallbackAbort] instead of returning a
    block. *)
Theorem quit_key_stops_playback {sample : Type} `{Dtype sample}
    (buffers : list (list (@frame sample))) (total_frames sr : Z)
    (keys : list Z) (st : PlaybackState)
    (outdata : list (@frame sample)) (frames : Z) :
  quit (press total_frames sr (Key.q :: keys) st) = true /\
  callback buffers (press total_frames sr (Key.q :: keys) st)
           outdata frames = CallbackAbort.
Proof.
  assert (Hsticky : forall ks s, quit s = true ->
                                 quit (press total_frames sr ks s) = true).
  { induction ks as [| k ks IH]; intros s Hq; [exact Hq |].
    apply IH. now apply handle_key_keeps_quit. }
  assert (Hq : quit (press total_frames sr (Key.q :: keys) st) = true)
    by (change (press total_frames sr (Key.q :: keys) st)
          with (press total_frames sr keys
                      (handle_key total_frames sr Key.q st));
        apply Hsticky; reflexivity).
  split; [exact Hq |].
  unfold callback. now rewrite Hq.
Qed.

(** ** The callback, block after block *)

Section CallbackMore.

Context {sample : Type} `{Dtype sample}.
Implicit Types (buf outdata : list (@frame sample)) (st : PlaybackState).

Lemma slices_split {A : Type} (l : list A) n :
  (length (Py.slice_to l n) + length (Py.slice_from l n))%nat = length l.
Proof.
  unfold Py.slice_to, Py.slice_from.
  rewrite <- length_app, firstn_skipn. reflexivity.
Qed.

Lemma assign_to_length outdata n rows out :
  assign_to outdata n rows = Some out -> length out = length outdata.
Proof.
  unfold assign_to. intros Hassign.
  pose proof (slices_split outdata n) as Hsplit.
  destruct (Nat.eqb_spec (length rows) (length (Py.slice_to outdata n)))
    as [Heq | _].
  - injection Hassign as <-. rewrite length_app. lia.
  - destruct rows as [| r [| r' rows]]; try discriminate.
    injection Hassign as <-. rewrite length_app, repeat_length. lia.
Qed.

Lemma zero_from_length outdata n :
  length (zero_from outdata n) = length outdata.
Proof.
  unfold zero_from. rewrite length_app, fill0_length.
  apply slices_split.
Qed.

Lemma callback_length (buffers : list (list (@frame sample)))
    st outdata (frames : Z) st' out :
  callback buffers st outdata frames = Returned st' out ->
  length out = length outdata.
Proof.
  unfold callback. intros Hret.
  destruct (quit st); [discriminate |].
  destruct (paused st).
  { injection Hret as _ <-. apply fill0_length. }
  destruct (Py.index buffers (active st)) as [buf |]; [| discriminate].
  set (n := Z.min (pos st + frames) (Py.len buf) - pos st) in *.
  destruct (0 <? n).
  - destruct (assign_to outdata n _) as [copied |] eqn:Hassign;
      [| discriminate].
    apply assign_to_length in Hassign.
    destruct (n <? frames); injection Hret as _ <-;
      rewrite ?zero_from_length; exact Hassign.
  - destruct (n <? frames); injection Hret as _ <-;
      rewrite ?zero_from_length; reflexivity.
Qed.

(** X6: whatever state the callback is called in, a block it returns has
    as many frames as the block it was given. *)
Theorem callback_block_length (buffers : list (list (@frame sample)))
    st outdata (frames : Z) st' out :
  callback buffers st outdata frames = Returned st' out ->
  length out = length outdata.
Proof. apply callback_length. Qed.

Lemma callback_frame
    (buffers : list (list (@frame sample))) st outdata (frames : Z)
    st' out :
  callback buffers st outdata frames = Returned st' out ->
  active st' = active st /\ quit st' = quit st /\ quit st = false /\
  (paused st = true -> st' = st) /\
  (paused st = false -> paused st' = true -> pos st' = 0).
Proof.
  unfold callback. intros Hret.
  destruct (quit st) eqn:Hq; [discriminate |].
  destruct (paused st) eqn:Hp.
  { injection Hret as <- _. repeat split; auto; discriminate. }
  destruct (Py.index buffers (active st)) as [buf |]; [| discriminate].
  set (n := Z.min (pos st + frames) (Py.len buf) - pos st) in *.
  destruct (0 <? n).
  - destruct (assign_to outdata n _) as [copied |]; [| discriminate].
    destruct (n <? frames); injection Hret as <- _;
      cbn [active quit paused pos set_pos set_paused];
      repeat split; auto; try discriminate; congruence.
  - destruct (n <? frames); injection Hret as <- _;
      cbn [active quit paused pos set_pos set_paused];
      repeat split; auto; try discriminate; congruence.
Qed.

(** X7: the callback never changes [active] or [quit]; it returns only
    with [quit] unset; a paused state it leaves as it is; and a playing
    state it leaves playing, or paused and rewound to 0. *)
Theorem callback_touches_pos_and_paused_only
    (buffers : list (list (@frame sample))) st outdata (frames : Z)
    st' out :
  callback buffers st outdata frames = Returned st' out ->
  active st' = active st /\ quit st' = quit st /\ quit st = false /\
  (if paused st then st' = st else paused st' = false \/ pos st' = 0).
Proof.
  intros Hret.
  destruct (callback_frame _ _ _ _ Hret) as (Ha & Hq & Hq0 & Hp & Hr).
  split; [exact Ha |]. split; [exact Hq |]. split; [exact Hq0 |].
  destruct (paused st); [apply Hp; reflexivity |].
  destruct (paused st'); [right; apply Hr; reflexivity | left; reflexivity].
Qed.

End CallbackMore.

Lemma callback_block_length_witness :
  length [[Demo.s 6]; [zero]; [zero]; [zero]] = length (Demo.stale 4).
Proof.
  apply (@callback_block_length _ _ [Demo.audio_a; Demo.audio_b]
           (Demo.playing 1 2) (Demo.stale 4) 4
           {| active := 1; paused := true; pos := 0; quit := false |}
           [[Demo.s 6]; [zero]; [zero]; [zero]]).
  reflexivity.
Defined.

Lemma callback_touches_pos_and_paused_only_witness :
  let st := Demo.playing 1 2 in
  let st' := {| active := 1; paused := true; pos := 0; quit := false |} in
  active st' = active st /\ quit st' = quit st /\ quit st = false /\
  (if paused st then st' = st else paused st' = false \/ pos st' = 0).
Proof.
  apply (@callback_touches_pos_and_paused_only _ _
           [Demo.audio_a; Demo.audio_b] (Demo.playing 1 2)
           (Demo.stale 4) 4
           {| active := 1; paused := true; pos := 0; quit := false |}
           [[Demo.s 6]; [zero]; [zero]; [zero]]).
  reflexivity.
Defined.

Section PlayFacts.

Context {sample : Type} `{Dtype sample}.
Implicit Types (buf outdata : list (@frame sample)) (st : PlaybackState).

Lemma firstn_plus {A : Type} (n m : nat) (l : list A) :
  firstn (n + m) l = firstn n l ++ firstn m (skipn n l).
Proof.
  revert l. induction n as [| n IH]; intros l; [reflexivity |].
  destruct l as [| x l]; cbn [Nat.add firstn skipn app].
  - now rewrite firstn_nil.
  - now rewrite IH.
Qed.

Lemma fill0_app (o1 o2 : list (@frame sample)) :
  fill0 (o1 ++ o2) = fill0 o1 ++ fill0 o2.
Proof. apply map_app. Qed.

(** A block that fits, followed by more: the rest is rendered from where
    the block ends. *)
Lemma render_block_app_fit buf p (o1 o2 : list (@frame sample)) :
  0 <= p -> p + Py.len o1 <= Py.len buf ->
  render_block buf p (o1 ++ o2)
  = render_block buf p o1 ++ render_block buf (p + Py.len o1) o2.
Proof.
  intros Hp Hfit. unfold render_block, Py.len in *.
  set (r := skipn (Z.to_nat p) buf).
  assert (Hr : (length o1 <= length r)%nat)
    by (unfold r; rewrite length_skipn; lia).
  replace (skipn (Z.to_nat (p + Z.of_nat (length o1))) buf)
    with (skipn (length o1) r)
    by (unfold r; rewrite skipn_skipn; f_equal; lia).
  rewrite length_app, firstn_plus.
  assert (H1 : length (firstn (length o1) r) = length o1)
    by (rewrite length_firstn; lia).
  rewrite H1, skipn_all. cbn [fill0 map]. rewrite app_nil_r.
  rewrite <- app_assoc. f_equal. f_equal. f_equal.
  rewrite length_app, H1, skipn_app.
  rewrite skipn_all2 by lia. cbn [app]. f_equal. lia.
Qed.

(** A block the buffer ends in, followed by more: the rest is zeros. *)
Lemma render_block_app_short buf p (o1 o2 : list (@frame sample)) :
  0 <= p <= Py.len buf -> p + Py.len o1 > Py.len buf ->
  render_block buf p (o1 ++ o2) = render_block buf p o1 ++ fill0 o2.
Proof.
  intros Hp Hshort. unfold render_block, Py.len in *.
  set (r := skipn (Z.to_nat p) buf).
  assert (Hr : (length r < length o1)%nat)
    by (unfold r; rewrite length_skipn; lia).
  rewrite !firstn_all2 by (rewrite ?length_app; lia).
  rewrite skipn_app, fill0_app, <- app_assoc.
  replace (length r - length o1)%nat with 0%nat by lia.
  reflexivity.
Qed.

(** While paused, blocks are zeroed and the state stays. *)
Lemma play_paused (buffers : list (list (@frame sample))) st blocks :
  quit st = false -> paused st = true ->
  play buffers st blocks = Some (st, fill0 (concat blocks)).
Proof.
  intros Hq Hp. induction blocks as [| o rest IH]; [reflexivity |].
  cbn [play concat]. unfold callback. rewrite Hq, Hp, IH.
  now rewrite fill0_app.
Qed.

Lemma advance_advance st total n m :
  0 <= n -> 0 <= m -> pos st + n <= total ->
  advance (set_pos st (pos st + n)) total m = advance st total (n + m).
Proof.
  intros Hn Hm Hfit. unfold advance. cbn [pos set_pos].
  rewrite Z.add_assoc.
  destruct (pos st + n + m <=? total); reflexivity.
Qed.

(** X8: callbacks in a row, with no key in between, play the buffer once
    and without a gap: from a playing state with [pos] in range, the
    blocks returned for any list of requests, joined, are the frames of
    the active buffer from [pos] on followed by zeros up to the total
    requested, exactly what one callback returns for the joined request;
    the state left is the one that single callback leaves. *)
Theorem play_is_one_block (buffers : list (list (@frame sample)))
    buf st (blocks : list (list (@frame sample))) :
  quit st = false -> paused st = false ->
  Py.index buffers (active st) = Some buf ->
  0 <= pos st <= Py.len buf ->
  play buffers st blocks
  = Some (advance st (Py.len buf) (Py.len (concat blocks)),
          render_block buf (pos st) (concat blocks)) /\
  callback buffers st (concat blocks) (Py.len (concat blocks))
  = Returned (advance st (Py.len buf) (Py.len (concat blocks)))
             (render_block buf (pos st) (concat blocks)).
Proof.
  intros Hq Hp Hbuf Hpos.
  split; [| now apply callback_playing].
  revert st Hq Hp Hbuf Hpos.
  induction blocks as [| o rest IH]; intros st Hq Hp Hbuf Hpos.
  - cbn [play concat]. unfold advance, render_block, Py.len.
    cbn [length Z.of_nat firstn skipn app fill0 map].
    rewrite Z.add_0_r.
    destruct (Z.leb_spec (pos st) (Z.of_nat (length buf)));
      [| unfold Py.len in Hpos; lia].
    now rewrite set_pos_same.
  - cbn [play concat].
    rewrite (callback_playing buffers st o Hq Hp Hbuf Hpos eq_refl).
    assert (Hlen : Py.len (o ++ concat rest)
                   = Py.len o + Py.len (concat rest))
      by (unfold Py.len; rewrite length_app; lia).
    pose proof (len_nonneg o) as Ho.
    pose proof (len_nonneg (concat rest)) as Hrest.
    unfold advance at 1.
    destruct (Z.leb_spec (pos st + Py.len o) (Py.len buf)) as [Hfit | Hend].
    + rewrite IH; cbn [quit paused active pos set_pos];
        try assumption; try lia.
      rewrite render_block_app_fit by lia.
      rewrite Hlen, advance_advance by lia.
      reflexivity.
    + rewrite play_paused by (first [exact Hq | reflexivity]).
      rewrite render_block_app_short by lia.
      rewrite Hlen. unfold advance.
      destruct (Z.leb_spec (pos st + (Py.len o + Py.len (concat rest)))
                           (Py.len buf)); [lia | reflexivity].
Qed.

(** X9: the A/B switch keeps the place: when a block from buffer A has
    been played from [pos] and TAB is pressed, the next block holds the
    frames of buffer B from [pos] plus the size of the first block, the
    frame index playback of A had reached. *)
Theorem switch_keeps_the_place (audio_a audio_b : list (@frame sample))
    (total_frames sr : Z) st (o1 o2 : list (@frame sample)) :
  Py.len audio_a = Py.len audio_b ->
  quit st = false -> paused st = false -> active st = 0 ->
  0 <= pos st -> pos st + Py.len o1 <= Py.len audio_a ->
  exists st1 st2,
    callback [audio_a; audio_b] st o1 (Py.len o1)
      = Returned st1 (firstn (length o1)
                             (skipn (Z.to_nat (pos st)) audio_a)) /\
    callback [audio_a; audio_b]
             (handle_key total_frames sr Key.tab st1) o2 (Py.len o2)
      = Returned st2 (render_block audio_b (pos st + Py.len o1) o2).
Proof.
  intros Hab Hq Hp Hact Hpos Hfit.
  pose proof (len_nonneg o1) as Ho1.
  assert (Hbuf : Py.index [audio_a; audio_b] (active st) = Some audio_a)
    by now rewrite Hact.
  exists (set_pos st (pos st + Py.len o1)).
  eexists. split.
  - rewrite (callback_playing [audio_a; audio_b] st o1 Hq Hp Hbuf)
      by (lia || reflexivity).
    unfold advance.
    destruct (Z.leb_spec (pos st + Py.len o1) (Py.len audio_a)); [| lia].
    f_equal. unfold render_block.
    assert (Hgot : length (firstn (length o1)
                             (skipn (Z.to_nat (pos st)) audio_a))
                   = length o1)
      by (rewrite length_firstn, length_skipn; unfold Py.len in *; lia).
    rewrite Hgot, skipn_all. cbn [fill0 map]. apply app_nil_r.
  - rewrite handle_tab.
    rewrite (@callback_playing _ _ [audio_a; audio_b] audio_b
               (set_active (set_pos st (pos st + Py.len o1))
                           (1 - active (set_pos st (pos st + Py.len o1))))
               o2 (Py.len o2));
      cbn [active quit paused pos set_active set_pos];
      try assumption; try reflexivity; try lia.
    now rewrite Hact.
Qed.

(** X10: end of stream is stop and rewind: after the callback that runs
    into the end of the buffer, one press of SPACE makes the next
    callback play the active buffer from its first frame. *)
Theorem space_after_the_end_replays (buffers : list (list (@frame sample)))
    (total_frames sr : Z) buf st (o1 o2 : list (@frame sample)) :
  quit st = false -> paused st = false ->
  Py.index buffers (active st) = Some buf ->
  0 <= pos st <= Py.len buf ->
  pos st + Py.len o1 > Py.len buf ->
  exists st1 st2,
    callback buffers st o1 (Py.len o1)
      = Returned st1 (render_block buf (pos st) o1) /\
    paused st1 = true /\
    callback buffers (handle_key total_frames sr Key.space st1)
             o2 (Py.len o2)
      = Returned st2 (render_block buf 0 o2).
Proof.
  intros Hq Hp Hbuf Hpos Hend.
  exists (set_pos (set_paused st true) 0). eexists.
  split; [| split; [reflexivity |]].
  - rewrite (callback_playing buffers st o1 Hq Hp Hbuf Hpos eq_refl).
    unfold advance.
    destruct (Z.leb_spec (pos st + Py.len o1) (Py.len buf)); [lia |].
    reflexivity.
  - rewrite handle_space.
    rewrite (@callback_playing _ _ buffers buf
               (set_paused (set_pos (set_paused st true) 0)
                  (negb (paused (set_pos (set_paused st true) 0))))
               o2 (Py.len o2));
      cbn [active quit paused pos set_paused set_pos negb];
      try assumption; try reflexivity.
    pose proof (len_nonneg buf). lia.
Qed.

End PlayFacts.

Lemma play_is_one_block_witness :
  let blocks := [Demo.stale 2; Demo.stale 2; Demo.stale 1] in
  play [Demo.audio_a; Demo.audio_b] (Demo.playing 0 0) blocks
  = Some (advance (Demo.playing 0 0) (Py.len Demo.audio_a)
                  (Py.len (concat blocks)),
          render_block Demo.audio_a (pos (Demo.playing 0 0))
                       (concat blocks)) /\
  callback [Demo.audio_a; Demo.audio_b] (Demo.playing 0 0)
           (concat blocks) (Py.len (concat blocks))
  = Returned (advance (Demo.playing 0 0) (Py.len Demo.audio_a)
                      (Py.len (concat blocks)))
             (render_block Demo.audio_a (pos (Demo.playing 0 0))
                           (concat blocks)).
Proof.
  apply (@play_is_one_block _ _ [Demo.audio_a; Demo.audio_b] Demo.audio_a
           (Demo.playing 0 0)
           [Demo.stale 2; Demo.stale 2; Demo.stale 1]);
    try reflexivity.
  cbn. lia.
Defined.

(** Five frames asked of three: the three frames, then two of zeros, and
    the state paused at 0. *)
Example play_runs :
  play [Demo.audio_a; Demo.audio_b] (Demo.playing 0 0)
       [Demo.stale 2; Demo.stale 2; Demo.stale 1]
  = Some ({| active := 0; paused := true; pos := 0; quit := false |},
          [[Demo.s 1]; [Demo.s 2]; [Demo.s 3]; [zero]; [zero]]).
Proof. reflexivity. Qed.

Lemma switch_keeps_the_place_witness :
  exists st1 st2,
    callback [Demo.audio_a; Demo.audio_b] (Demo.playing 0 1)
             (Demo.stale 1) (Py.len (Demo.stale 1))
      = Returned st1 (firstn (length (Demo.stale 1))
                        (skipn (Z.to_nat (pos (Demo.playing 0 1)))
                               Demo.audio_a)) /\
    callback [Demo.audio_a; Demo.audio_b]
             (handle_key 3 48000 Key.tab st1)
             (Demo.stale 1) (Py.len (Demo.stale 1))
      = Returned st2 (render_block Demo.audio_b
                        (pos (Demo.playing 0 1) + Py.len (Demo.stale 1))
                        (Demo.stale 1)).
Proof.
  apply (@switch_keeps_the_place _ _ Demo.audio_a Demo.audio_b 3 48000
           (Demo.playing 0 1) (Demo.stale 1) (Demo.stale 1));
    try reflexivity; cbn; lia.
Defined.

Lemma space_after_the_end_replays_witness :
  exists st1 st2,
    callback [Demo.audio_a; Demo.audio_b] (Demo.playing 1 2)
             (Demo.stale 2) (Py.len (Demo.stale 2))
      = Returned st1 (render_block Demo.audio_b
                        (pos (Demo.playing 1 2)) (Demo.stale 2)) /\
    paused st1 = true /\
    callback [Demo.audio_a; Demo.audio_b]
             (handle_key 3 48000 Key.space st1)
             (Demo.stale 2) (Py.len (Demo.stale 2))
      = Returned st2 (render_block Demo.audio_b 0 (Demo.stale 2)).
Proof.
  apply (@space_after_the_end_replays _ _ [Demo.audio_a; Demo.audio_b]
           3 48000 Demo.audio_b (Demo.playing 1 2)
           (Demo.stale 2) (Demo.stale 2));
    try reflexivity; cbn; lia.
Defined.

(** ** The two threads, further *)

Section ThreadMore.

Context {sample : Type} `{Dtype sample}.

Variables audio_a audio_b : list (@frame sample).
Variable sr : Z.

Local Abbreviation Inv' := (invariant audio_a audio_b).
Local Abbreviation Step' := (step audio_a audio_b sr).
Local Abbreviation Run' := (run audio_a audio_b sr).
Local Abbreviation Move := (render_move audio_a audio_b).

(** Inside the [with] block the audio thread can always move, and each
    move brings it nearer to the release, which frees the lock. *)
Lemma render_move_progress (c : @config sample) :
  render_in_cs (r_pc (render c)) = true ->
  exists c',
    Move c = Some c' /\ ui c' = ui c /\
    ((exists k, r_pc (render c) = RExit k) /\ lock c' = false \/
     render_in_cs (r_pc (render c')) = true /\
     (moves_left (r_pc (render c')) < moves_left (r_pc (render c)))%nat).
Proof.
  intros Hcs. unfold render_move, render_stmt.
  destruct (r_pc (render c)) eqn:Hpc; try discriminate;
    try (eexists; split; [reflexivity |]; split; [reflexivity |];
         right; cbn; split; [reflexivity | lia]).
  - destruct (quit (shared c)); eexists;
      (split; [reflexivity |]; split; [reflexivity |]);
      right; cbn; split; try reflexivity; lia.
  - destruct (paused (shared c)); eexists;
      (split; [reflexivity |]; split; [reflexivity |]);
      right; cbn; split; try reflexivity; lia.
  - destruct (Py.index _ _); eexists;
      (split; [reflexivity |]; split; [reflexivity |]);
      right; cbn; split; try reflexivity; lia.
  - destruct (0 <? r_length (render c)); eexists;
      (split; [reflexivity |]; split; [reflexivity |]);
      right; cbn; split; try reflexivity; lia.
  - destruct (assign_to _ _ _); eexists;
      (split; [reflexivity |]; split; [reflexivity |]);
      right; cbn; split; try reflexivity; lia.
  - destruct (r_length (render c) <? r_frames (render c)); eexists;
      (split; [reflexivity |]; split; [reflexivity |]);
      right; cbn; split; try reflexivity; lia.
  - destruct k; eexists;
      (split; [reflexivity |]; split; [reflexivity |]);
      left; split; eauto.
Qed.

Lemma render_leaves_within (n : nat) (c : @config sample) :
  render_in_cs (r_pc (render c)) = true ->
  (moves_left (r_pc (render c)) <= n)%nat ->
  exists k c',
    (k <= n)%nat /\
    Run' c (repeat RenderStep k) = Some c' /\
    lock c' = false /\ ui c' = ui c.
Proof.
  revert c. induction n as [| n IH]; intros c Hcs Hleft.
  - destruct (r_pc (render c)); cbn in Hcs, Hleft; discriminate || lia.
  - destruct (render_move_progress c Hcs)
      as (c1 & Hmove & Hui & [[_ Hfree] | [Hcs1 Hless]]).
    + exists 1%nat, c1. cbn [repeat run step]. rewrite Hmove.
      split; [lia |]. split; [reflexivity |]. split; assumption.
    + destruct (IH c1 Hcs1) as (k & c2 & Hk & Hrun & Hfree & Hui2);
        [lia |].
      exists (S k), c2. cbn [repeat run step]. rewrite Hmove.
      split; [lia |]. split; [assumption |]. split; congruence.
Qed.

(** Inside a [with] block the UI thread makes at most 4 moves (the three
    reads of the snapshot and the release, or the key and the release),
    none of them waiting. *)
Lemma ui_leaves_within_4 (c : @config sample) :
  ui_in_cs (u_pc (ui c)) = true ->
  exists k c',
    (k <= 4)%nat /\
    Run' c (repeat UiStep k) = Some c' /\
    lock c' = false /\ render c' = render c.
Proof.
  intros Hcs. destruct c as [sh lk rl [pc ua up uo uk] em].
  cbn [ui u_pc] in Hcs.
  destruct pc; try discriminate.
  - exists 4%nat. eexists. split; [lia |]. split; [reflexivity |]. split; reflexivity.
  - exists 3%nat. eexists. split; [lia |]. split; [reflexivity |]. split; reflexivity.
  - exists 2%nat. eexists. split; [lia |]. split; [reflexivity |]. split; reflexivity.
  - exists 1%nat. eexists. split; [lia |]. split; [reflexivity |]. split; reflexivity.
  - exists 2%nat. eexists. split; [lia |]. split; [reflexivity |]. split; reflexivity.
  - exists 1%nat. eexists. split; [lia |]. split; [reflexivity |]. split; reflexivity.
Qed.

(** A held lock has a holder. *)
Lemma step_keeps_holder (c c' : @config sample) a :
  Step' c a = Some c' ->
  (lock c = true ->
   render_in_cs (r_pc (render c)) || ui_in_cs (u_pc (ui c)) = true) ->
  lock c' = true ->
  render_in_cs (r_pc (render c')) || ui_in_cs (u_pc (ui c')) = true.
Proof.
  intros Hstep Hheld.
  destruct a as [outdata | | key |]; cbn [step] in Hstep.
  - destruct (r_pc (render c)) eqn:Hpc; try discriminate.
    injection Hstep as <-. cbn [lock render ui r_pc render_in_cs orb].
    intros Hlock. specialize (Hheld Hlock). exact Hheld.
  - unfold render_move in Hstep.
    destruct (r_pc (render c)) eqn:Hpc; try discriminate;
      try (destruct (render_stmt audio_a audio_b (shared c) (render c))
             as [sh' rl'] eqn:Hstmt;
           injection Hstep as <-; intros _;
           cbn [lock render ui];
           pose proof (@render_stmt_stays_inside _ _ audio_a audio_b
                         (shared c) (render c)) as Hstay;
           rewrite Hstmt, Hpc in Hstay; cbn [snd] in Hstay;
           rewrite (Hstay eq_refl); reflexivity).
    + destruct (lock c); [discriminate |].
      injection Hstep as <-. intros _. reflexivity.
    + destruct k; injection Hstep as <-; cbn [lock]; discriminate.
  - destruct (u_pc (ui c)) eqn:Hupc; try discriminate.
    injection Hstep as <-. cbn [lock render ui u_pc].
    intros Hlock. specialize (Hheld Hlock).
    rewrite orb_false_r in Hheld. rewrite Hheld. reflexivity.
  - unfold ui_move in Hstep.
    destruct (u_pc (ui c)) eqn:Hupc; try discriminate;
      try (injection Hstep as <-; cbn [lock render ui u_pc u_goto ui_in_cs];
           first [ discriminate
                 | intros _; apply orb_true_r
                 | intros Hlock; specialize (Hheld Hlock);
                   rewrite orb_false_r in Hheld; rewrite Hheld;
                   now destruct (quit (shared c)) ]).
    + destruct (lock c); [discriminate |].
      injection Hstep as <-. intros _. apply orb_true_r.
    + destruct (lock c); [discriminate |].
      injection Hstep as <-. intros _. apply orb_true_r.
Qed.

Lemma run_keeps_holder schedule (c c' : @config sample) :
  Run' c schedule = Some c' ->
  (lock c = true ->
   render_in_cs (r_pc (render c)) || ui_in_cs (u_pc (ui c)) = true) ->
  lock c' = true ->
  render_in_cs (r_pc (render c')) || ui_in_cs (u_pc (ui c')) = true.
Proof.
  revert c. induction schedule as [| a rest IH]; intros c Hrun Hheld.
  - cbn in Hrun. injection Hrun as <-. exact Hheld.
  - cbn [run] in Hrun.
    destruct (Step' c a) as [c1 |] eqn:Hstep; [| discriminate].
    apply (IH c1 Hrun). now apply (step_keeps_holder c a).
Qed.

(** X13: the callback never waits long for the lock.  In every run,
    when the audio thread stands before its [with] block and the lock is
    taken, the UI thread holds it inside one of its own [with] blocks and
    leaves it within 4 of its own moves, none of them waiting; the audio
    thread can then take the lock. *)
Theorem callback_waits_at_most_4_moves
    (schedule : list (@action sample)) (c : @config sample) :
  Run' initial_config schedule = Some c ->
  r_pc (render c) = RAcquire -> lock c = true ->
  ui_in_cs (u_pc (ui c)) = true /\
  exists k c',
    (k <= 4)%nat /\
    Run' c (repeat UiStep k) = Some c' /\
    lock c' = false /\
    exists c'', Step' c' RenderStep = Some c'' /\
                r_pc (render c'') = RQuit.
Proof.
  intros Hrun Hpc Hlock.
  assert (Hui : ui_in_cs (u_pc (ui c)) = true).
  { pose proof (run_keeps_holder schedule initial_config Hrun) as Hheld.
    cbn [lock initial_config] in Hheld.
    specialize (Hheld ltac:(discriminate) Hlock).
    now rewrite Hpc in Hheld. }
  split; [exact Hui |].
  destruct (ui_leaves_within_4 c Hui) as (k & c' & Hk & Hmoves & Hfree & Hr).
  exists k, c'. repeat (split; [assumption |]).
  cbn [step]. unfold render_move. rewrite Hr, Hpc, Hfree.
  eexists. split; reflexivity.
Qed.

(** X14: the UI thread never waits long for the lock either.  In every
    run, when it stands before one of its [with] blocks and the lock is
    taken, the callback holds it and leaves it within 14 of its own
    moves, none of them waiting. *)
Theorem ui_waits_at_most_14_moves
    (schedule : list (@action sample)) (c : @config sample) :
  Run' initial_config schedule = Some c ->
  u_pc (ui c) = USnapAcquire \/ u_pc (ui c) = UAcquire ->
  lock c = true ->
  render_in_cs (r_pc (render c)) = true /\
  exists k c',
    (k <= 14)%nat /\
    Run' c (repeat RenderStep k) = Some c' /\
    lock c' = false /\ ui c' = ui c.
Proof.
  intros Hrun Hpc Hlock.
  assert (Hcs : render_in_cs (r_pc (render c)) = true).
  { pose proof (run_keeps_holder schedule initial_config Hrun) as Hheld.
    cbn [lock initial_config] in Hheld.
    specialize (Hheld ltac:(discriminate) Hlock).
    destruct Hpc as [Hpc | Hpc]; rewrite Hpc in Hheld;
      now rewrite orb_false_r in Hheld. }
  split; [exact Hcs |].
  apply render_leaves_within; [assumption |].
  destruct (r_pc (render c)); cbn; lia.
Qed.

End ThreadMore.

Section ThreadInvariants.

Context {sample : Type} `{Dtype sample}.

Variables audio_a audio_b : list (@frame sample).
Variable sr : Z.

Hypothesis same_length : Py.len audio_a = Py.len audio_b.
Hypothesis rate_nonneg : 0 <= sr.

Local Abbreviation Inv'' := (invariant audio_a audio_b).
Local Abbreviation Step'' := (step audio_a audio_b sr).
Local Abbreviation Run'' := (run audio_a audio_b sr).

Lemma reachable_invariant schedule (c : @config sample) :
  Run'' initial_config schedule = Some c -> Inv'' c.
Proof.
  intros Hrun.
  eapply run_invariant; [exact same_length | exact rate_nonneg | | exact Hrun].
  apply initial_invariant.
Qed.

(** X11: in every run, every block handed to the device has as many
    frames as the device asked for, and comes from a snapshot with [quit]
    unset; the callback that made it left [active] and [quit] as they
    were. *)
Theorem emitted_blocks_are_whole
    (schedule : list (@action sample)) (c : @config sample) :
  Run'' initial_config schedule = Some c ->
  Forall (fun e =>
            length (e_block e) = length (e_given e) /\
            quit (e_snapshot e) = false /\
            active (e_after e) = active (e_snapshot e) /\
            quit (e_after e) = false)
         (emitted c).
Proof.
  intros Hrun.
  eapply Forall_impl; [| exact (inv_emitted (reachable_invariant _ Hrun))].
  intros e [Hcall _].
  pose proof (callback_length _ _ _ _ Hcall) as Hlen.
  destruct (callback_frame _ _ _ _ Hcall)
    as (Hact & Hq' & Hq & _).
  repeat split; try assumption. congruence.
Qed.

Lemma callback_abort_means_quit (buffers : list (list (@frame sample)))
    st outdata frames :
  callback buffers st outdata frames = CallbackAbort -> quit st = true.
Proof.
  unfold callback. destruct (quit st); [reflexivity |].
  destruct (paused st); [discriminate |].
  destruct (Py.index buffers (active st)); [| discriminate].
  destruct (0 <? _); [destruct (assign_to _ _ _) |];
    try discriminate; destruct (_ <? frames); discriminate.
Qed.

(** With at least one frame, a well-formed state makes no callback
    raise. *)
Lemma callback_not_raised st outdata :
  0 < Py.len audio_a ->
  state_ok (Py.len audio_a) st ->
  callback [audio_a; audio_b] st outdata (Py.len outdata) <> Raised.
Proof.
  intros Hsome [Hact [Hpos | [Hnone _]]]; [| lia].
  pose proof (index_pair audio_a audio_b Hact) as Hbuf.
  set (buf := if active st =? 0 then audio_a else audio_b) in *.
  assert (Hlen : Py.len buf = Py.len audio_a)
    by (unfold buf; destruct (active st =? 0); congruence).
  destruct (quit st) eqn:Hq.
  { unfold callback. rewrite Hq. discriminate. }
  destruct (paused st) eqn:Hp.
  { unfold callback. rewrite Hq, Hp. discriminate. }
  unfold pos_in_range in Hpos. rewrite <- Hlen in Hpos.
  rewrite (callback_playing [audio_a; audio_b] st outdata Hq Hp Hbuf
             Hpos eq_refl).
  discriminate.
Qed.

Lemma invariant_at_exit (c : @config sample) k :
  Inv'' c -> r_pc (render c) = RExit k ->
  agrees audio_a audio_b (shared c, render c) /\
  state_ok (Py.len audio_a) (r_snap (render c)).
Proof.
  intros Hinv Hpc.
  destruct (inv_inside Hinv) as [Hag Hok]; [now rewrite Hpc |].
  rewrite (finish_at_exit audio_a audio_b 14 (shared c) (render c) Hpc)
    in Hag.
  split; assumption.
Qed.

Lemma invariant_no_raise (c : @config sample) :
  0 < Py.len audio_a -> Inv'' c -> r_pc (render c) <> RExit ExitRaise.
Proof.
  intros Hsome Hinv Hpc.
  destruct (invariant_at_exit Hinv Hpc) as [Hag Hok].
  unfold agrees in Hag. cbn [fst snd] in Hag. rewrite Hpc in Hag.
  destruct Hag as [Hraised _].
  exact (callback_not_raised _ Hsome Hok Hraised).
Qed.

Lemma render_stmt_keeps_quit sh (rl : @rlocal sample) :
  quit (fst (render_stmt audio_a audio_b sh rl)) = quit sh.
Proof.
  unfold render_stmt.
  destruct (r_pc rl); try reflexivity.
  - now destruct (Py.index _ _).
  - now destruct (assign_to _ _ _).
Qed.

Lemma step_stops_on_quit (c c' : @config sample) a :
  0 < Py.len audio_a -> Inv'' c ->
  (r_pc (render c) = RStopped -> quit (shared c) = true) ->
  Step'' c a = Some c' ->
  r_pc (render c') = RStopped -> quit (shared c') = true.
Proof.
  intros Hsome Hinv Hstopped Hstep.
  destruct a as [outdata | | key |]; cbn [step] in Hstep.
  - destruct (r_pc (render c)) eqn:Hpc; try discriminate.
    injection Hstep as <-. cbn [render r_pc]. discriminate.
  - unfold render_move in Hstep.
    destruct (r_pc (render c)) eqn:Hpc; try discriminate;
      try (pose proof (@render_stmt_stays_inside _ _ audio_a audio_b
                         (shared c) (render c)) as Hstay;
           rewrite Hpc in Hstay; specialize (Hstay eq_refl);
           destruct (render_stmt audio_a audio_b (shared c) (render c))
             as [sh' rl'] eqn:Hstmt;
           injection Hstep as <-; cbn [render snd] in *;
           intros Hpc'; rewrite Hpc' in Hstay; discriminate).
    + destruct (lock c); [discriminate |].
      injection Hstep as <-. cbn [render r_pc]. discriminate.
    + destruct k; injection Hstep as <-; cbn [render shared r_pc r_goto].
      * discriminate.
      * intros _. destruct (invariant_at_exit Hinv Hpc) as [Hag _].
        unfold agrees in Hag. cbn [fst snd] in Hag. rewrite Hpc in Hag.
        destruct Hag as [Habort Hsame]. rewrite Hsame.
        exact (callback_abort_means_quit _ _ _ _ Habort).
      * exfalso. exact (invariant_no_raise Hsome Hinv Hpc).
  - destruct (u_pc (ui c)) eqn:Hupc; try discriminate.
    injection Hstep as <-. exact Hstopped.
  - unfold ui_move in Hstep.
    destruct (u_pc (ui c)) eqn:Hupc; try discriminate;
      try (injection Hstep as <-; exact Hstopped).
    + destruct (lock c); [discriminate |].
      injection Hstep as <-. exact Hstopped.
    + destruct (lock c); [discriminate |].
      injection Hstep as <-. exact Hstopped.
    + injection Hstep as <-. cbn [render shared]. intros Hpc.
      apply handle_key_keeps_quit. now apply Hstopped.
Qed.

Lemma run_stops_on_quit schedule (c c' : @config sample) :
  0 < Py.len audio_a -> Inv'' c ->
  (r_pc (render c) = RStopped -> quit (shared c) = true) ->
  Run'' c schedule = Some c' ->
  r_pc (render c') = RStopped -> quit (shared c') = true.
Proof.
  intros Hsome. revert c.
  induction schedule as [| a rest IH]; intros c Hinv Hstopped Hrun.
  - cbn in Hrun. now injection Hrun as <-.
  - cbn [run] in Hrun.
    destruct (Step'' c a) as [c1 |] eqn:Hstep; [| discriminate].
    apply (IH c1); [| | assumption].
    + eapply step_invariant; eassumption.
    + eapply step_stops_on_quit; eassumption.
Qed.

(** X12: with buffers of at least one frame, playback never faults: in
    every run the callback never leaves its [with] block on an
    [IndexError] or [ValueError], and the stream has not stopped unless
    [quit] is set. *)
Theorem playback_never_faults
    (schedule : list (@action sample)) (c : @config sample) :
  0 < Py.len audio_a ->
  Run'' initial_config schedule = Some c ->
  r_pc (render c) <> RExit ExitRaise /\
  (quit (shared c) = true \/ r_pc (render c) <> RStopped).
Proof.
  intros Hsome Hrun. split.
  - apply invariant_no_raise; [assumption |].
    exact (reachable_invariant _ Hrun).
  - destruct (quit (shared c)) eqn:Hquit; [left; reflexivity | right].
    intros Hstopped.
    assert (Hq : quit (shared c) = true).
    { eapply run_stops_on_quit;
        [exact Hsome | apply initial_invariant | discriminate | exact Hrun
        | exact Hstopped]. }
    congruence.
Qed.

Lemma step_keeps_snapshot (c c' : @config sample) a :
  Inv'' c -> snapshot_so_far c ->
  Step'' c a = Some c' -> snapshot_so_far c'.
Proof.
  intros Hinv Hsnap Hstep.
  assert (Hblocked : ui_in_cs (u_pc (ui c)) = true ->
                     render_move audio_a audio_b c = None).
  { intros Hui. unfold render_move.
    pose proof (inv_ui_lock Hinv Hui) as Hlock.
    destruct (render_in_cs (r_pc (render c))) eqn:Hcs.
    - exfalso. exact (inv_mutex Hinv Hcs Hui).
    - destruct (r_pc (render c)); try discriminate; try reflexivity.
      now rewrite Hlock. }
  unfold snapshot_so_far in *.
  destruct a as [outdata | | key |]; cbn [step] in Hstep.
  - destruct (r_pc (render c)); try discriminate.
    injection Hstep as <-. exact Hsnap.
  - destruct (ui_in_cs (u_pc (ui c))) eqn:Hui.
    + rewrite (Hblocked eq_refl) in Hstep. discriminate.
    + assert (Hsame : ui c' = ui c).
      { unfold render_move in Hstep.
        destruct (r_pc (render c)); try discriminate;
          try (destruct (render_stmt audio_a audio_b (shared c) (render c));
               now injection Hstep as <-).
        - destruct (lock c); [discriminate | now injection Hstep as <-].
        - destruct k; now injection Hstep as <-. }
      rewrite Hsame.
      destruct (u_pc (ui c)); try exact I; discriminate.
  - destruct (u_pc (ui c)); try discriminate.
    injection Hstep as <-. cbn [ui u_pc].
    now destruct (key =? -1).
  - unfold ui_move in Hstep.
    destruct (u_pc (ui c)) eqn:Hupc; try discriminate;
      try (injection Hstep as <-; cbn [ui u_pc u_goto shared u_active
                                       u_paused u_pos];
           first [exact I | tauto | now destruct (quit (shared c))]).
    + destruct (lock c); [discriminate |]. now injection Hstep as <-.
    + destruct (lock c); [discriminate |]. now injection Hstep as <-.
Qed.

Lemma run_keeps_snapshot schedule (c c' : @config sample) :
  Inv'' c -> snapshot_so_far c ->
  Run'' c schedule = Some c' -> snapshot_so_far c'.
Proof.
  revert c. induction schedule as [| a rest IH]; intros c Hinv Hsnap Hrun.
  - cbn in Hrun. now injection Hrun as <-.
  - cbn [run] in Hrun.
    destruct (Step'' c a) as [c1 |] eqn:Hstep; [| discriminate].
    apply (IH c1); [| | assumption].
    + eapply step_invariant; eassumption.
    + eapply step_keeps_snapshot; eassumption.
Qed.

(** X15: what the UI thread shows is one state: in every run, when it
    has read [active], [paused] and [pos] and is about to release the
    lock, the three values are those of the shared state at that
    moment; the callback has not moved in between. *)
Theorem ui_snapshot_is_one_state
    (schedule : list (@action sample)) (c : @config sample) :
  Run'' initial_config schedule = Some c ->
  u_pc (ui c) = USnapRelease ->
  u_active (ui c) = active (shared c) /\
  u_paused (ui c) = paused (shared c) /\
  u_pos (ui c) = pos (shared c).
Proof.
  intros Hrun Hpc.
  assert (Hsnap : snapshot_so_far c).
  { eapply run_keeps_snapshot;
      [apply initial_invariant | exact I | exact Hrun]. }
  unfold snapshot_so_far in Hsnap. now rewrite Hpc in Hsnap.
Qed.

End ThreadInvariants.

Lemma emitted_blocks_are_whole_witness :
  exists c,
    run Demo.audio_a Demo.audio_b 48000 initial_config demo_schedule
      = Some c /\
    length (emitted c) = 2%nat /\
    Forall (fun e =>
              length (e_block e) = length (e_given e) /\
              quit (e_snapshot e) = false /\
              active (e_after e) = active (e_snapshot e) /\
              quit (e_after e) = false)
           (emitted c).
Proof.
  destruct (run Demo.audio_a Demo.audio_b 48000 initial_config
              demo_schedule) as [c |] eqn:Hrun;
    [| vm_compute in Hrun; discriminate].
  exists c. split; [reflexivity |]. split.
  - vm_compute in Hrun. injection Hrun as <-. reflexivity.
  - apply (@emitted_blocks_are_whole _ _ Demo.audio_a Demo.audio_b 48000
             eq_refl ltac:(lia) demo_schedule c Hrun).
Defined.

Lemma playback_never_faults_witness :
  exists c,
    run Demo.audio_a Demo.audio_b 48000 initial_config demo_schedule
      = Some c /\
    r_pc (render c) <> RExit ExitRaise /\
    (quit (shared c) = true \/ r_pc (render c) <> RStopped).
Proof.
  destruct (run Demo.audio_a Demo.audio_b 48000 initial_config
              demo_schedule) as [c |] eqn:Hrun;
    [| vm_compute in Hrun; discriminate].
  exists c. split; [reflexivity |].
  apply (@playback_never_faults _ _ Demo.audio_a Demo.audio_b 48000
           eq_refl ltac:(lia) demo_schedule c);
    [reflexivity | exact Hrun].
Defined.

Lemma callback_waits_at_most_4_moves_witness :
  exists c,
    run Demo.audio_a Demo.audio_b 48000 initial_config
        [UiStep; UiStep; Invoke (Demo.stale 2)] = Some c /\
    ui_in_cs (u_pc (ui c)) = true /\
    exists k c',
      (k <= 4)%nat /\
      run Demo.audio_a Demo.audio_b 48000 c (repeat UiStep k) = Some c' /\
      lock c' = false /\
      exists c'', step Demo.audio_a Demo.audio_b 48000 c' RenderStep
                  = Some c'' /\
                  r_pc (render c'') = RQuit.
Proof.
  eexists. split; [reflexivity |].
  apply (@callback_waits_at_most_4_moves _ _ Demo.audio_a Demo.audio_b
           48000 [UiStep; UiStep; Invoke (Demo.stale 2)]);
    reflexivity.
Defined.

Lemma ui_waits_at_most_14_moves_witness :
  exists c,
    run Demo.audio_a Demo.audio_b 48000 initial_config
        [Invoke (Demo.stale 2); RenderStep; UiStep] = Some c /\
    render_in_cs (r_pc (render c)) = true /\
    exists k c',
      (k <= 14)%nat /\
      run Demo.audio_a Demo.audio_b 48000 c (repeat RenderStep k)
        = Some c' /\
      lock c' = false /\ ui c' = ui c.
Proof.
  eexists. split; [reflexivity |].
  apply (@ui_waits_at_most_14_moves _ _ Demo.audio_a Demo.audio_b
           48000 [Invoke (Demo.stale 2); RenderStep; UiStep]);
    [reflexivity | left; reflexivity | reflexivity].
Defined.

Lemma ui_snapshot_is_one_state_witness :
  exists c,
    run Demo.audio_a Demo.audio_b 48000 initial_config
        (repeat UiStep 6 ++ [Getch Key.space; Invoke (Demo.stale 2)]
         ++ repeat UiStep 3
         ++ [RenderStep; UiStep] ++ repeat RenderStep 11
         ++ repeat UiStep 5 ++ [Getch Key.tab] ++ repeat UiStep 5
         ++ [Invoke (Demo.stale 2)] ++ repeat UiStep 3) = Some c /\
    (u_pc (ui c) = USnapRelease /\ r_pc (render c) = RAcquire /\
     shared c = {| active := 1; paused := false; pos := 2;
                   quit := false |} /\
     u_active (ui c) = 1 /\ u_paused (ui c) = false /\
     u_pos (ui c) = 2) /\
    u_active (ui c) = active (shared c) /\
    u_paused (ui c) = paused (shared c) /\
    u_pos (ui c) = pos (shared c).
Proof.
  destruct (run Demo.audio_a Demo.audio_b 48000 initial_config
              (repeat UiStep 6 ++ [Getch Key.space; Invoke (Demo.stale 2)]
               ++ repeat UiStep 3
               ++ [RenderStep; UiStep] ++ repeat RenderStep 11
               ++ repeat UiStep 5 ++ [Getch Key.tab] ++ repeat UiStep 5
               ++ [Invoke (Demo.stale 2)] ++ repeat UiStep 3))
    as [c |] eqn:Hrun; [| vm_compute in Hrun; discriminate].
  exists c. split; [reflexivity |].
  assert (Hfacts :
            u_pc (ui c) = USnapRelease /\ r_pc (render c) = RAcquire /\
            shared c = {| active := 1; paused := false; pos := 2;
                          quit := false |} /\
            u_active (ui c) = 1 /\ u_paused (ui c) = false /\
            u_pos (ui c) = 2).
  { pose proof Hrun as Hval. vm_compute in Hval.
    injection Hval as <-. repeat split. }
  split; [exact Hfacts |].
  apply (@ui_snapshot_is_one_state _ _ Demo.audio_a Demo.audio_b 48000
           eq_refl ltac:(lia) _ c Hrun).
  apply Hfacts.
Defined.

(** ** Loading, further *)

Section LoaderMore.

Context {sample : Type} `{Dtype sample}.
Implicit Types (audio : @ndarray sample) (x : @array2 sample).

(** X16: [load_wavs] ends in [sys.exit] exactly when file A or file B
    does not exist, or both exist and their sample rates differ or their
    channel counts differ; the exit code is then 1, and [normalize] plays
    no part. *)
Theorem load_exits_exactly_on_failed_validation
    (path_a path_b : option (@ndarray sample * Z)) (do_normalize : bool) :
  ((exists msg code,
       load_wavs path_a path_b do_normalize = SysExit msg code)
   <->
   (path_a = None \/ path_b = None \/
    exists audio_a sr_a audio_b sr_b,
      path_a = Some (audio_a, sr_a) /\ path_b = Some (audio_b, sr_b) /\
      (sr_a <> sr_b \/
       channels (ensure_2d audio_a) <> channels (ensure_2d audio_b)))) /\
  match load_wavs path_a path_b do_normalize with
  | SysExit _ code => code = 1
  | _ => True
  end.
Proof.
  split.
  - rewrite <- load_exits_iff. reflexivity.
  - destruct (load_wavs path_a path_b do_normalize) eqn:Hload;
      try exact I.
    eapply load_exit_code. exact Hload.
Qed.

Lemma abs_max_none x : abs_max x = None <-> concat (rows x) = [].
Proof.
  unfold abs_max. destruct (concat (rows x)); cbn [map]; split;
    intros Hnone; first [reflexivity | discriminate].
Qed.

Lemma normalize_peak_none x :
  normalize_peak x = None <-> concat (rows x) = [].
Proof.
  rewrite <- abs_max_none. unfold normalize_peak.
  destruct (abs_max x) as [peak |]; [| tauto].
  destruct (gt peak zero); split; discriminate.
Qed.

(** X17: [load_wavs] dies on the [ValueError] of [normalize_peak] exactly
    when both files exist with one sample rate and one channel count,
    [normalize] is on, and one of the two arrays, cut to the common
    length, has no sample at all. *)
Theorem load_raises_exactly_on_empty_normalize
    (path_a path_b : option (@ndarray sample * Z)) (do_normalize : bool) :
  load_wavs path_a path_b do_normalize = ValueError
  <->
  exists audio_a audio_b sr,
    path_a = Some (audio_a, sr) /\ path_b = Some (audio_b, sr) /\
    channels (ensure_2d audio_a) = channels (ensure_2d audio_b) /\
    do_normalize = true /\
    let n := Z.min (Py.len (rows (ensure_2d audio_a)))
                   (Py.len (rows (ensure_2d audio_b))) in
    (concat (rows (truncate (ensure_2d audio_a) n)) = [] \/
     concat (rows (truncate (ensure_2d audio_b) n)) = []).
Proof.
  destruct path_a as [[audio_a sr_a] |].
  2: { split; [discriminate |]. intros (a & b & s & Ha & _). discriminate. }
  destruct path_b as [[audio_b sr_b] |].
  2: { split; [discriminate |].
       intros (a & b & s & _ & Hb & _). discriminate. }
  unfold load_wavs.
  destruct (Z.eqb_spec sr_a sr_b) as [Hsr | Hsr]; cbn [negb].
  2: { split; [discriminate |].
       intros (a & b & s & Ha & Hb & _).
       injection Ha as _ <-. injection Hb as _ <-. contradiction. }
  destruct (Z.eqb_spec (channels (ensure_2d audio_a))
                       (channels (ensure_2d audio_b))) as [Hch | Hch];
    cbn [negb].
  2: { split; [discriminate |].
       intros (a & b & s & Ha & Hb & Hch' & _).
       injection Ha as <- _. injection Hb as <- _. contradiction. }
  set (n := Z.min _ _).
  destruct do_normalize.
  2: { split; [discriminate |].
       intros (a & b & s & _ & _ & _ & Hn & _). discriminate. }
  pose proof (normalize_peak_none (truncate (ensure_2d audio_a) n)) as Ha.
  pose proof (normalize_peak_none (truncate (ensure_2d audio_b) n)) as Hb.
  split.
  - intros Herr. exists audio_a, audio_b, sr_a. subst sr_b.
    repeat (split; [reflexivity || assumption |]).
    fold n.
    destruct (normalize_peak (truncate (ensure_2d audio_a) n)).
    + destruct (normalize_peak (truncate (ensure_2d audio_b) n));
        [discriminate |].
      right. now apply Hb.
    + left. now apply Ha.
  - intros (a & b & s & Hpa & Hpb & _ & _ & Hempty).
    injection Hpa as <- _. injection Hpb as <- _. fold n in Hempty.
    destruct Hempty as [Hempty | Hempty].
    + apply Ha in Hempty. now rewrite Hempty.
    + apply Hb in Hempty. rewrite Hempty.
      now destruct (normalize_peak (truncate (ensure_2d audio_a) n)).
Qed.

Lemma normalize_peak_shape x out :
  normalize_peak x = Some out ->
  channels out = channels x /\
  map (@length sample) (rows out) = map (@length sample) (rows x).
Proof.
  unfold normalize_peak.
  destruct (abs_max x) as [peak |]; [| discriminate].
  destruct (gt peak zero); intros Hout; injection Hout as <-;
    [| split; reflexivity].
  cbn [channels rows]. split; [reflexivity |].
  rewrite map_map. apply map_ext. intros row. apply length_map.
Qed.

(** X18: [normalize_peak] keeps the shape: when it returns, the array has
    the channel count, the number of frames and the width of every frame
    of the array it was given. *)
Theorem normalize_peak_keeps_shape x out :
  normalize_peak x = Some out ->
  channels out = channels x /\
  length (rows out) = length (rows x) /\
  map (@length sample) (rows out) = map (@length sample) (rows x).
Proof.
  intros Hout. destruct (normalize_peak_shape x Hout) as [Hch Hrows].
  repeat split; try assumption.
  apply (f_equal (@length nat)) in Hrows. now rewrite !length_map in Hrows.
Qed.

(** X19: whatever [normalize] is, what [load_wavs] returns is uniform:
    both buffers have [min(len(A), len(B))] frames and the channel count
    of the inputs, and the rate returned is the rate of both files. *)
Theorem loaded_pair_is_uniform audio_a audio_b sr_a sr_b
    (do_normalize : bool) a b sr :
  load_wavs (Some (audio_a, sr_a)) (Some (audio_b, sr_b)) do_normalize
    = Loaded a b sr ->
  let n := Nat.min (length (rows (ensure_2d audio_a)))
                   (length (rows (ensure_2d audio_b))) in
  length (rows a) = n /\ length (rows b) = n /\
  channels a = channels (ensure_2d audio_a) /\
  channels b = channels (ensure_2d audio_b) /\
  channels a = channels b /\
  sr = sr_a /\ sr = sr_b.
Proof.
  unfold load_wavs.
  destruct (Z.eqb_spec sr_a sr_b) as [Hsr | Hsr]; cbn [negb];
    [| discriminate].
  destruct (Z.eqb_spec (channels (ensure_2d audio_a))
                       (channels (ensure_2d audio_b))) as [Hch | Hch];
    cbn [negb]; [| discriminate].
  intros Hload. cbv zeta.
  set (n := Nat.min (length (rows (ensure_2d audio_a)))
                    (length (rows (ensure_2d audio_b)))).
  assert (Hn : Z.min (Py.len (rows (ensure_2d audio_a)))
                     (Py.len (rows (ensure_2d audio_b))) = Z.of_nat n)
    by (unfold n, Py.len; now rewrite Nat2Z.inj_min).
  rewrite Hn in Hload.
  assert (Ha : length (rows (truncate (ensure_2d audio_a) (Z.of_nat n))) = n)
    by (rewrite truncate_rows, length_firstn by (unfold n; lia);
        unfold n; lia).
  assert (Hb : length (rows (truncate (ensure_2d audio_b) (Z.of_nat n))) = n)
    by (rewrite truncate_rows, length_firstn by (unfold n; lia);
        unfold n; lia).
  destruct do_normalize.
  - destruct (normalize_peak (truncate (ensure_2d audio_a) _))
      as [a' |] eqn:Hna; [| discriminate].
    destruct (normalize_peak (truncate (ensure_2d audio_b) _))
      as [b' |] eqn:Hnb; [| discriminate].
    injection Hload as <- <- <-.
    destruct (normalize_peak_shape _ Hna) as [Hcha Hra].
    destruct (normalize_peak_shape _ Hnb) as [Hchb Hrb].
    apply (f_equal (@length nat)) in Hra, Hrb.
    rewrite !length_map in Hra, Hrb.
    cbn [truncate channels] in Hcha, Hchb.
    repeat split; congruence.
  - injection Hload as <- <- <-. cbn [truncate channels].
    repeat split; congruence.
Qed.

End LoaderMore.

Lemma loaded_pair_is_uniform_witness :
  let audio_a := Arr1 [Demo.s 1; Demo.s 2; Demo.s 3] in
  let audio_b := Arr2 1 [[Demo.s 4]; [Demo.s 5]] in
  let a := {| channels := 1; rows := [[Demo.s 1]; [Demo.s 2]] |} in
  let b := {| channels := 1; rows := [[Demo.s 4]; [Demo.s 5]] |} in
  let n := Nat.min (length (rows (ensure_2d audio_a)))
                   (length (rows (ensure_2d audio_b))) in
  length (rows a) = n /\ length (rows b) = n /\
  channels a = channels (ensure_2d audio_a) /\
  channels b = channels (ensure_2d audio_b) /\
  channels a = channels b /\
  48000 = 48000 /\ 48000 = 48000.
Proof.
  apply (@loaded_pair_is_uniform _ _
           (Arr1 [Demo.s 1; Demo.s 2; Demo.s 3])
           (Arr2 1 [[Demo.s 4]; [Demo.s 5]]) 48000 48000 false
           {| channels := 1; rows := [[Demo.s 1]; [Demo.s 2]] |}
           {| channels := 1; rows := [[Demo.s 4]; [Demo.s 5]] |} 48000).
  reflexivity.
Defined.

Lemma normalize_peak_keeps_shape_witness :
  let x := {| channels := 1;
              rows := [[of_float 1 2]; [of_float (-1) 4]] |} in
  let out := {| channels := 1;
                rows := [[of_float 95 100]; [of_float (-95) 200]] |} in
  channels out = channels x /\
  length (rows out) = length (rows x) /\
  map (@length spec_float) (rows out) = map (@length spec_float) (rows x).
Proof.
  apply (@normalize_peak_keeps_shape _ _
           {| channels := 1; rows := [[of_float 1 2]; [of_float (-1) 4]] |}
           {| channels := 1;
              rows := [[of_float 95 100]; [of_float (-95) 200]] |}).
  reflexivity.
Defined.

(** ** [normalize_peak] in binary32: what needs no rounding *)

(** A sample that is a zero of either sign. *)
Lemma abs_of_zero x :
  (exists s, x = S754_zero s) -> SFabs x = S754_zero false.
Proof. now intros [s ->]. Qed.

Lemma max_of_zeros (xs : list spec_float) :
  Forall (fun x => exists s, x = S754_zero s) xs ->
  fold_left Binary32.maximum (map SFabs xs) (S754_zero false)
  = S754_zero false.
Proof.
  induction 1 as [| x xs Hx _ IH]; [reflexivity |].
  cbn [map fold_left]. now rewrite (abs_of_zero Hx).
Qed.

(** X20: silence stays silence: in binary32, an array with at least one
    sample whose samples are all zeros, of either sign, is returned by
    [normalize_peak] as it is. *)
Theorem normalize_peak_of_silence (audio : @array2 spec_float) :
  concat (rows audio) <> [] ->
  Forall (fun x => exists s, x = S754_zero s) (concat (rows audio)) ->
  normalize_peak audio = Some audio.
Proof.
  intros Hsome Hzero. unfold normalize_peak, abs_max.
  destruct (concat (rows audio)) as [| x xs]; [contradiction |].
  inversion Hzero as [| ? ? Hx Hxs]; subst.
  cbn [map]. change (@fabs spec_float binary32) with SFabs.
  rewrite (abs_of_zero Hx).
  change (@fmaximum spec_float binary32) with Binary32.maximum.
  now rewrite (max_of_zeros Hxs).
Qed.

Lemma normalize_peak_of_silence_witness :
  normalize_peak {| channels := 2;
                    rows := [[S754_zero false; S754_zero true];
                             [S754_zero true; S754_zero false]] |}
  = Some {| channels := 2;
            rows := [[S754_zero false; S754_zero true];
                     [S754_zero true; S754_zero false]] |}.
Proof.
  apply (@normalize_peak_of_silence
           {| channels := 2;
              rows := [[S754_zero false; S754_zero true];
                       [S754_zero true; S754_zero false]] |}).
  - discriminate.
  - repeat constructor; eauto.
Defined.

Lemma max_stays_nan (xs : list spec_float) :
  fold_left Binary32.maximum xs S754_nan = S754_nan.
Proof. induction xs as [| x xs IH]; [reflexivity | exact IH]. Qed.

Lemma max_meets_nan (xs : list spec_float) acc :
  In S754_nan xs -> fold_left Binary32.maximum xs acc = S754_nan.
Proof.
  revert acc. induction xs as [| x xs IH]; intros acc Hin; [destruct Hin |].
  cbn [fold_left]. destruct Hin as [-> | Hin]; [| now apply IH].
  replace (Binary32.maximum acc S754_nan) with S754_nan
    by (unfold Binary32.maximum; now destruct acc).
  apply max_stays_nan.
Qed.

(** X21: one NaN switches normalization off: in binary32, an array that
    holds a NaN has a NaN peak, which is not above 0, and
    [normalize_peak] returns the array as it is, however loud the other
    samples are. *)
Theorem normalize_peak_with_nan (audio : @array2 spec_float) :
  In S754_nan (concat (rows audio)) ->
  normalize_peak audio = Some audio.
Proof.
  intros Hnan. unfold normalize_peak, abs_max.
  change (@fabs spec_float binary32) with SFabs.
  change (@fmaximum spec_float binary32) with Binary32.maximum.
  assert (Hin : In S754_nan (map SFabs (concat (rows audio))))
    by (apply in_map_iff; exists S754_nan; split; [reflexivity | exact Hnan]).
  destruct (map SFabs (concat (rows audio))) as [| x xs]; [destruct Hin |].
  destruct Hin as [-> | Hin].
  - now rewrite max_stays_nan.
  - now rewrite (@max_meets_nan xs x Hin).
Qed.

Lemma normalize_peak_with_nan_witness :
  normalize_peak {| channels := 1;
                    rows := [[of_float 1 2]; [S754_nan]; [Demo.s 7]] |}
  = Some {| channels := 1;
            rows := [[of_float 1 2]; [S754_nan]; [Demo.s 7]] |}.
Proof.
  apply (@normalize_peak_with_nan
           {| channels := 1;
              rows := [[of_float 1 2]; [S754_nan]; [Demo.s 7]] |}).
  cbn. auto.
Defined.

(** A peak of a half is brought to the target by the factor 1.9, which
    is exact in binary32. *)
Example normalize_peak_runs :
  normalize_peak {| channels := 1;
                    rows := [[of_float 1 2]; [of_float (-1) 4]] |}
  = Some {| channels := 1;
            rows := [[of_float 95 100]; [of_float (-95) 200]] |}.
Proof. reflexivity. Qed.

(** ** Cutoff validation ([filter_wav.py], [audio_tool.py]) *)

Section Rounded.

Variables prec emax : Z.

Lemma shr_1_nonneg (mrs : shr_record) :
  0 <= shr_m mrs -> 0 <= shr_m (shr_1 mrs).
Proof.
  destruct mrs as [m r s]. cbn [shr_m]. intros Hm.
  destruct m as [|p|p]; [cbn; lia | | lia].
  destruct p; cbn; lia.
Qed.

Lemma iter_shr_1_nonneg (p : positive) :
  forall mrs, 0 <= shr_m mrs -> 0 <= shr_m (iter_pos shr_1 p mrs).
Proof.
  induction p as [p IH|p IH|]; intros mrs Hm; cbn [iter_pos].
  - apply IH, IH, shr_1_nonneg, Hm.
  - apply IH, IH, Hm.
  - apply shr_1_nonneg, Hm.
Qed.

Lemma shr_fexp_nonneg (m e : Z) (l : location) :
  0 <= m -> 0 <= shr_m (fst (shr_fexp prec emax m e l)).
Proof.
  intros Hm. unfold shr_fexp, shr.
  assert (Hrec : 0 <= shr_m (shr_record_of_loc m l)).
  { destruct l as [|[]]; cbn; exact Hm. }
  destruct (fexp prec emax (Zdigits2 m + e) - e) as [|p|p]; cbn [fst].
  - exact Hrec.
  - apply iter_shr_1_nonneg, Hrec.
  - exact Hrec.
Qed.

Lemma round_nearest_even_nonneg (m : Z) (l : location) :
  0 <= m -> 0 <= round_nearest_even m l.
Proof.
  intros Hm. unfold round_nearest_even.
  destruct l as [|[]]; try destruct (Z.even m); lia.
Qed.

Lemma binary_round_aux_not_nan (sx : bool) (mx ex : Z) (lx : location) :
  0 <= mx -> binary_round_aux prec emax sx mx ex lx <> S754_nan.
Proof.
  intros Hm. unfold binary_round_aux.
  pose proof (shr_fexp_nonneg ex lx Hm) as H1.
  destruct (shr_fexp prec emax mx ex lx) as [mrs' e']. cbn [fst] in H1.
  pose proof (@shr_fexp_nonneg _ e' loc_Exact
                (round_nearest_even_nonneg (loc_of_shr_record mrs') H1)) as H2.
  destruct (shr_fexp prec emax _ e' loc_Exact) as [mrs'' e'']. cbn [fst] in H2.
  destruct (shr_m mrs'') as [|p|p]; [discriminate | | lia].
  destruct (e'' <=? emax - prec); discriminate.
Qed.

Lemma binary_normalize_not_nan (m e : Z) (szero : bool) :
  binary_normalize prec emax m e szero <> S754_nan.
Proof.
  unfold binary_normalize, binary_round.
  destruct m as [|p|p]; [discriminate | |];
    destruct (shl_align _ _ _) as [mz ez];
    apply binary_round_aux_not_nan; lia.
Qed.

End Rounded.

(** The quotient [sr / 2] is a number whenever it exists. *)
Lemma int_half_not_nan (sr : Z) (q : spec_float) :
  Binary64.int_half sr = Some q -> Binary64.is_nan q = false.
Proof.
  unfold Binary64.int_half.
  pose proof (@binary_normalize_not_nan Binary64.prec Binary64.emax sr (-1) false)
    as Hn.
  destruct (binary_normalize _ _ sr (-1) false); intros H;
    try discriminate; try (exfalso; apply Hn; reflexivity);
    injection H as <-; reflexivity.
Qed.

(** Comparison of floats is undefined on NaN only, and swapping the sides
    swaps the answer. *)
Lemma SFcompare_defined (x y : spec_float) :
  Binary64.is_nan x = false -> Binary64.is_nan y = false ->
  exists c, SFcompare x y = Some c.
Proof.
  destruct x, y; cbn; intros Hx Hy; try discriminate; eauto.
Qed.

Lemma SFcompare_swap (x y : spec_float) :
  SFcompare y x = option_map CompOpp (SFcompare x y).
Proof.
  destruct x as [sx|sx| |sx mx ex], y as [sy|sy| |sy my ey]; cbn;
    try reflexivity;
    try (destruct sx; reflexivity); try (destruct sy; reflexivity);
    try (destruct sx, sy; reflexivity).
  destruct sx, sy; cbn; try reflexivity; f_equal;
    rewrite (Z.compare_antisym ex ey);
    destruct (ex ?= ey) eqn:He; cbn; try reflexivity;
    change (Pos.compare_cont Eq my mx) with (Pos.compare my mx);
    change (Pos.compare_cont Eq mx my) with (Pos.compare mx my);
    rewrite (Pos.compare_antisym mx my);
    destruct (Pos.compare mx my); reflexivity.
Qed.

(** [not (x <= y)] is [y < x] between numbers; with a NaN on either side
    both are false. *)
Lemma SFleb_false_number (x y : spec_float) :
  Binary64.is_nan x = false -> Binary64.is_nan y = false ->
  SFleb x y = false <-> SFltb y x = true.
Proof.
  intros Hx Hy. unfold SFleb, SFltb. rewrite (SFcompare_swap x y).
  destruct (SFcompare_defined x y Hx Hy) as [c ->].
  destruct c; cbn; split; intros H; try reflexivity; discriminate.
Qed.

Lemma SFleb_nan (x y : spec_float) :
  Binary64.is_nan x = true \/ Binary64.is_nan y = true -> SFleb x y = false.
Proof.
  intros [H|H]; destruct x, y; try discriminate; reflexivity.
Qed.

Lemma validate_cutoff_passes (cutoff : spec_float) (sr : Z) (name : cutoff_name)
    (nyquist : spec_float) :
  Binary64.int_half sr = Some nyquist ->
  validate_cutoff cutoff sr name = None <->
  Binary64.is_nan cutoff = true \/
  (SFltb (S754_zero false) cutoff = true /\ SFltb cutoff nyquist = true).
Proof.
  intros Hq. unfold validate_cutoff. rewrite Hq.
  pose proof (int_half_not_nan sr Hq) as Hny.
  destruct (Binary64.is_nan cutoff) eqn:Hc.
  - rewrite (@SFleb_nan cutoff (S754_zero false)) by (left; exact Hc).
    rewrite (@SFleb_nan nyquist cutoff) by (right; exact Hc).
    split; [left; reflexivity | reflexivity].
  - pose proof (@SFleb_false_number cutoff (S754_zero false) Hc eq_refl) as H0.
    pose proof (@SFleb_false_number nyquist cutoff Hny Hc) as H1.
    destruct (SFleb cutoff (S754_zero false)).
    + split; [discriminate|].
      intros [H|[H _]]; [discriminate|].
      apply H0 in H. discriminate.
    + destruct (SFleb nyquist cutoff).
      * split; [discriminate|].
        intros [H|[_ H]]; [discriminate|].
        apply H1 in H. discriminate.
      * split; [|reflexivity]. intros _. right.
        split; [apply H0 | apply H1]; reflexivity.
Qed.

(** X22 ([validate_cutoff]): when [sr / 2] is a float, a cutoff passes the
    validation exactly when it is NaN or lies strictly between 0 and the
    Nyquist frequency; the name plays no part. *)
Theorem validate_cutoff_accepts_exactly (cutoff : spec_float) (sr : Z)
    (name : cutoff_name) (nyquist : spec_float) :
  Binary64.int_half sr = Some nyquist ->
  validate_cutoff cutoff sr name = None <->
  Binary64.is_nan cutoff = true \/
  (SFltb (S754_zero false) cutoff = true /\ SFltb cutoff nyquist = true).
Proof.
  apply validate_cutoff_passes.
Qed.

Lemma validate_cutoff_accepts_exactly_witness :
  Binary64.int_half 44100 = Some (S754_finite false 6061057848115200 (-38)) /\
  (validate_cutoff (S754_finite false 8444249301319680 (-46)) 44100
     NameHighpass = None <->
   Binary64.is_nan (S754_finite false 8444249301319680 (-46)) = true \/
   (SFltb (S754_zero false) (S754_finite false 8444249301319680 (-46)) = true /\
    SFltb (S754_finite false 8444249301319680 (-46))
          (S754_finite false 6061057848115200 (-38)) = true)).
Proof.
  split; [vm_compute; reflexivity|].
  apply (@validate_cutoff_accepts_exactly
           (S754_finite false 8444249301319680 (-46)) 44100 NameHighpass).
  vm_compute; reflexivity.
Defined.

Section FilterFacts.

Variable array : Type.
Variable butter_sosfiltfilt :
  Z -> list spec_float -> btype -> Z -> array -> option array.

Local Abbreviation Bandpass := (apply_bandpass butter_sosfiltfilt).
Local Abbreviation Highpass := (apply_highpass butter_sosfiltfilt).
Local Abbreviation Lowpass := (apply_lowpass butter_sosfiltfilt).

Lemma validate_cutoff_nan (cutoff : spec_float) (sr : Z) (name : cutoff_name)
    (nyquist : spec_float) :
  Binary64.int_half sr = Some nyquist ->
  Binary64.is_nan cutoff = true ->
  validate_cutoff cutoff sr name = None.
Proof.
  intros Hq Hc. apply (@validate_cutoff_passes cutoff sr name nyquist Hq).
  left. exact Hc.
Qed.

(** X23 ([apply_bandpass]): a bandpass whose cutoffs are numbers reaches
    scipy only with [0 < low < high < sr / 2], and then with exactly those
    two cutoffs, the order, the rate and the audio it was given. *)
Theorem bandpass_runs_inside_the_band (audio : array) (lo hi : spec_float)
    (sr order : Z) (r : option array) :
  Binary64.is_nan lo = false ->
  Binary64.is_nan hi = false ->
  Bandpass audio lo hi sr order = inl r ->
  exists nyquist,
    Binary64.int_half sr = Some nyquist /\
    SFltb (S754_zero false) lo = true /\
    SFltb lo hi = true /\
    SFltb hi nyquist = true /\
    r = butter_sosfiltfilt order [lo; hi] band sr audio.
Proof.
  intros Hlo Hhi. unfold apply_bandpass.
  destruct (Binary64.int_half sr) as [ny|] eqn:Hq.
  2:{ unfold validate_cutoff. rewrite Hq. discriminate. }
  destruct (validate_cutoff lo sr NameBandpassLow) eqn:Hvl; [discriminate|].
  destruct (validate_cutoff hi sr NameBandpassHigh) eqn:Hvh; [discriminate|].
  destruct (SFleb hi lo) eqn:Hle; [discriminate|].
  intros H. injection H as <-.
  apply (@validate_cutoff_passes lo sr NameBandpassLow ny Hq) in Hvl.
  apply (@validate_cutoff_passes hi sr NameBandpassHigh ny Hq) in Hvh.
  destruct Hvl as [Hvl|[Hl0 _]]; [congruence|].
  destruct Hvh as [Hvh|[_ Hh1]]; [congruence|].
  exists ny. split; [reflexivity|]. split; [exact Hl0|].
  split; [apply (@SFleb_false_number hi lo Hhi Hlo); exact Hle|].
  split; [exact Hh1 | reflexivity].
Qed.

(** X24 ([apply_highpass], [apply_lowpass], [apply_bandpass]): a NaN cutoff
    is stopped by none of the checks: each filter hands it to scipy. *)
Theorem nan_cutoff_reaches_scipy (audio : array) (cutoff : spec_float)
    (sr order : Z) (nyquist : spec_float) :
  Binary64.int_half sr = Some nyquist ->
  Binary64.is_nan cutoff = true ->
  Highpass audio cutoff sr order
    = inl (butter_sosfiltfilt order [cutoff] high sr audio) /\
  Lowpass audio cutoff sr order
    = inl (butter_sosfiltfilt order [cutoff] low sr audio) /\
  Bandpass audio cutoff cutoff sr order
    = inl (butter_sosfiltfilt order [cutoff; cutoff] band sr audio).
Proof.
  intros Hq Hc.
  unfold apply_highpass, apply_lowpass, apply_bandpass.
  rewrite !(fun name => @validate_cutoff_nan cutoff sr name nyquist Hq Hc).
  rewrite (@SFleb_nan cutoff cutoff) by (left; exact Hc).
  split; [reflexivity|]. split; reflexivity.
Qed.

(** A mixed pair: a NaN low cutoff also passes [low >= high]. *)
Lemma nan_low_cutoff_reaches_scipy (audio : array) (lo hi : spec_float)
    (sr order : Z) :
  Binary64.is_nan lo = true ->
  validate_cutoff hi sr NameBandpassHigh = None ->
  Bandpass audio lo hi sr order
    = inl (butter_sosfiltfilt order [lo; hi] band sr audio).
Proof.
  intros Hlo Hv. unfold apply_bandpass.
  assert (Hq : exists ny, Binary64.int_half sr = Some ny).
  { unfold validate_cutoff in Hv.
    destruct (Binary64.int_half sr) as [ny|]; [eauto | discriminate]. }
  destruct Hq as [ny Hq].
  rewrite (@validate_cutoff_nan lo sr NameBandpassLow ny Hq Hlo), Hv.
  rewrite (@SFleb_nan hi lo) by (right; exact Hlo).
  reflexivity.
Qed.

End FilterFacts.

Lemma bandpass_runs_inside_the_band_witness :
  exists nyquist,
    Binary64.int_half 44100 = Some nyquist /\
    SFltb (S754_zero false) (S754_finite false 8444249301319680 (-46)) = true /\
    SFltb (S754_finite false 8444249301319680 (-46))
          (S754_finite false 8796093022208000 (-42)) = true /\
    SFltb (S754_finite false 8796093022208000 (-42)) nyquist = true /\
    Some tt = Some tt.
Proof.
  apply (@bandpass_runs_inside_the_band unit (fun _ _ _ _ a => Some a) tt
           (S754_finite false 8444249301319680 (-46))
           (S754_finite false 8796093022208000 (-42)) 44100 4 (Some tt)).
  - reflexivity.
  - reflexivity.
  - vm_compute. reflexivity.
Defined.

Lemma nan_cutoff_reaches_scipy_witness :
  apply_highpass (fun _ _ _ _ _ => None) tt S754_nan 44100 4 = inl None /\
  apply_lowpass (fun _ _ _ _ _ => None) tt S754_nan 44100 4 = inl None /\
  apply_bandpass (fun _ _ _ _ _ => None) tt S754_nan S754_nan 44100 4
    = inl None.
Proof.
  apply (@nan_cutoff_reaches_scipy unit (fun _ _ _ _ _ => None) tt S754_nan
           44100 4 (S754_finite false 6061057848115200 (-38))).
  - vm_compute. reflexivity.
  - reflexivity.
Defined.
